(** * dfw_map: the election-map server (loaders and query service)

    A shallow embedding of the server script: the two start-up loaders
    (CSV results, GeoJSON precincts), the SQLite tables they fill, and
    the six GET handlers.  JavaScript values, [JSON.stringify],
    [JSON.parse] and the fragment of SQLite the script relies on
    (column affinity, PRIMARY KEY, [=] against NULL, DISTINCT,
    ORDER BY, GROUP BY, LIMIT) are modelled explicitly. *)

From Stdlib Require Import List String Ascii Bool ZArith NArith Lia.
From Stdlib Require Import Sorted Permutation.
From Stdlib Require Import DecimalN DecimalFacts OrderedTypeEx.
Import ListNotations.

Local Open Scope Z_scope.
Local Open Scope string_scope.
Local Open Scope list_scope.

(** ** Characters *)

Definition dquote : ascii := "034"%char.
Definition backslash : ascii := "092"%char.

Definition chars (s : string) : list ascii := list_ascii_of_string s.

(** ** Decimal numerals

    [String(n)], template literals and SQLite's integer-to-text
    conversion all print an integer in decimal. *)

Fixpoint uint_chars (u : Decimal.uint) : list ascii :=
  match u with
  | Decimal.Nil => []
  | Decimal.D0 u => "0"%char :: uint_chars u
  | Decimal.D1 u => "1"%char :: uint_chars u
  | Decimal.D2 u => "2"%char :: uint_chars u
  | Decimal.D3 u => "3"%char :: uint_chars u
  | Decimal.D4 u => "4"%char :: uint_chars u
  | Decimal.D5 u => "5"%char :: uint_chars u
  | Decimal.D6 u => "6"%char :: uint_chars u
  | Decimal.D7 u => "7"%char :: uint_chars u
  | Decimal.D8 u => "8"%char :: uint_chars u
  | Decimal.D9 u => "9"%char :: uint_chars u
  end.

Definition decimal_chars (z : Z) : list ascii :=
  if (z <? 0)%Z then "-"%char :: uint_chars (N.to_uint (Z.abs_N z))
  else uint_chars (N.to_uint (Z.abs_N z)).

Definition decimal (z : Z) : string := string_of_list_ascii (decimal_chars z).

(** The digit constructor a character stands for, if it is a digit. *)
Definition digit_of (c : ascii) : option (Decimal.uint -> Decimal.uint) :=
  if (c =? "0")%char then Some Decimal.D0
  else if (c =? "1")%char then Some Decimal.D1
  else if (c =? "2")%char then Some Decimal.D2
  else if (c =? "3")%char then Some Decimal.D3
  else if (c =? "4")%char then Some Decimal.D4
  else if (c =? "5")%char then Some Decimal.D5
  else if (c =? "6")%char then Some Decimal.D6
  else if (c =? "7")%char then Some Decimal.D7
  else if (c =? "8")%char then Some Decimal.D8
  else if (c =? "9")%char then Some Decimal.D9
  else None.

Definition is_digit (c : ascii) : bool :=
  match digit_of c with Some _ => true | None => false end.

(** The digits start with a digit other than zero. *)
Definition nonzero_head (u : Decimal.uint) : Prop :=
  match u with
  | Decimal.Nil | Decimal.D0 _ => False
  | _ => True
  end.

(** The text that follows does not go on with a digit. *)
Definition no_digit_ahead (rest : list ascii) : Prop :=
  match rest with
  | [] => True
  | c :: _ => digit_of c = None
  end.

(** Longest prefix of digits, and what follows it. *)
Fixpoint read_digits (s : list ascii) : Decimal.uint * list ascii :=
  match s with
  | [] => (Decimal.Nil, [])
  | c :: r =>
      match digit_of c with
      | Some d => let (u, r') := read_digits r in (d u, r')
      | None => (Decimal.Nil, s)
      end
  end.

(** ** JavaScript values

    A number held by a property is an integer (a [Z]).  Strings are
    sequences of bytes (the UTF-8 text SQLite stores and compares). *)

(** The integers JavaScript holds exactly, from -(2^53 - 1) to
    2^53 - 1 ([Number.isSafeInteger]).  [PNum n] stands for the number
    [n] when [n] is one of them.  Beyond them not every integer is a
    number, [String] and [JSON.stringify] change to the exponent form
    from 10^21 on, and a 64-bit integer read from the store is rounded;
    none of that is represented, and the properties that depend on the
    text or the value of a number are stated for safe integers. *)
Definition max_safe_integer : Z := 9007199254740991.

Definition safe_integer (z : Z) : bool :=
  (- max_safe_integer <=? z)%Z && (z <=? max_safe_integer)%Z.

Inductive jsprim : Type :=
| PNull
| PBool (b : bool)
| PNum (n : Z)
| PStr (s : string).

(** A value read from an object: [None] is [undefined]. *)
Definition jsval : Type := option jsprim.

(** ToBoolean. *)
Definition truthy (v : jsval) : bool :=
  match v with
  | None => false
  | Some PNull => false
  | Some (PBool b) => b
  | Some (PNum n) => negb (n =? 0)%Z
  | Some (PStr s) => negb (s =? "")%string
  end.

(** [a || b] *)
Definition js_or (a b : jsval) : jsval := if truthy a then a else b.

(** [String(v)].  A number is printed in plain decimal, as JavaScript
    prints an integer below 10^21. *)
Definition ToString (v : jsval) : string :=
  match v with
  | None => "undefined"
  | Some PNull => "null"
  | Some (PBool true) => "true"
  | Some (PBool false) => "false"
  | Some (PNum n) => decimal n
  | Some (PStr s) => s
  end.

(** An object (a GeoJSON properties map, a CSV record): its members in
    enumeration order, each key once. *)
Definition object (A : Type) : Type := list (string * A).

(** [obj.name] *)
Fixpoint get {A : Type} (name : string) (obj : object A) : option A :=
  match obj with
  | [] => None
  | (k, v) :: rest => if (k =? name)%string then Some v else get name rest
  end.

(** [obj[name] = v]: overwrite in place, or add at the end. *)
Fixpoint set {A : Type} (name : string) (v : A) (obj : object A) : object A :=
  match obj with
  | [] => [(name, v)]
  | (k, w) :: rest =>
      if (k =? name)%string then (k, v) :: rest else (k, w) :: set name v rest
  end.

(** ** JSON values

    [JDec neg int frac] is a number with a fractional part, held by the
    digits JavaScript prints for it: sign, integer part, and the digits
    after the point (at least one, the last one not zero), as in
    [-96.797].  Numbers printed with an exponent, and negative zero, are
    not represented. *)

#[warnings="-register-all"]
Inductive json : Type :=
| JPrim (p : jsprim)
| JDec (neg : bool) (int : N) (frac : Decimal.uint)
| JArr (items : list json)
| JObj (members : list (string * json)).

(** Digits after the point as JavaScript prints them: not empty, and
    not ending in zero. *)
Fixpoint canonical_fraction (f : Decimal.uint) : bool :=
  match f with
  | Decimal.Nil => false
  | Decimal.D0 f' => canonical_fraction f'
  | Decimal.D1 f' | Decimal.D2 f' | Decimal.D3 f'
  | Decimal.D4 f' | Decimal.D5 f' | Decimal.D6 f'
  | Decimal.D7 f' | Decimal.D8 f' | Decimal.D9 f' =>
      match f' with
      | Decimal.Nil => true
      | _ => canonical_fraction f'
      end
  end.

Abbreviation JNull := (JPrim PNull).
Abbreviation JBool b := (JPrim (PBool b)).
Abbreviation JNum n := (JPrim (PNum n)).
Abbreviation JStr s := (JPrim (PStr s)).

Module JSON.

(** *** JSON.stringify (no indentation) *)

Definition hex_digit (n : N) : ascii :=
  if (n <? 10)%N then ascii_of_N (48 + n) else ascii_of_N (87 + n).

(** QuoteJSONString, one character. *)
Definition quote_char (c : ascii) : list ascii :=
  if (c =? dquote)%char then [backslash; dquote]
  else if (c =? backslash)%char then [backslash; backslash]
  else if (c =? "008")%char then [backslash; "b"%char]
  else if (c =? "012")%char then [backslash; "f"%char]
  else if (c =? "010")%char then [backslash; "n"%char]
  else if (c =? "013")%char then [backslash; "r"%char]
  else if (c =? "009")%char then [backslash; "t"%char]
  else if (N_of_ascii c <? 32)%N then
    [backslash; "u"%char; "0"%char; "0"%char;
     hex_digit (N_of_ascii c / 16); hex_digit (N_of_ascii c mod 16)]
  else [c].

Definition quote (s : string) : list ascii :=
  dquote :: flat_map quote_char (chars s) ++ [dquote].

Section Joined.
Context {A : Type} (pr : A -> list ascii).

Fixpoint joined (l : list A) : list ascii :=
  match l with
  | [] => []
  | x :: rest =>
      match rest with
      | [] => pr x
      | _ :: _ => pr x ++ ","%char :: joined rest
      end
  end.
End Joined.

Definition print_prim (p : jsprim) : list ascii :=
  match p with
  | PNull => chars "null"
  | PBool true => chars "true"
  | PBool false => chars "false"
  | PNum n => decimal_chars n
  | PStr s => quote s
  end.

(** A number with a fraction, in plain decimal: what JavaScript prints
    from 10^-6 up to 10^21. *)
Definition print_dec (neg : bool) (int : N) (frac : Decimal.uint) : list ascii :=
  (if neg then ["-"%char] else [])
    ++ uint_chars (N.to_uint int) ++ "."%char :: uint_chars frac.

Fixpoint print (v : json) : list ascii :=
  match v with
  | JPrim p => print_prim p
  | JDec neg int frac => print_dec neg int frac
  | JArr items => "["%char :: joined print items ++ ["]"%char]
  | JObj members =>
      "{"%char
        :: joined (fun kv => quote (fst kv) ++ ":"%char :: print (snd kv)) members
        ++ ["}"%char]
  end.

Definition stringify (v : json) : string := string_of_list_ascii (print v).

(** *** JSON.parse

    [None] stands for a SyntaxError, and also for the parts of the
    grammar left out: a number with an exponent, and a [\u] escape
    above U+007F.  Negative zero is read as zero. *)

Definition is_ws (c : ascii) : bool :=
  (c =? " ")%char || (c =? "009")%char || (c =? "010")%char || (c =? "013")%char.

Fixpoint skip_ws (s : list ascii) : list ascii :=
  match s with
  | c :: r => if is_ws c then skip_ws r else s
  | [] => []
  end.

Fixpoint strip_prefix (p s : list ascii) : option (list ascii) :=
  match p, s with
  | [], _ => Some s
  | a :: p', b :: s' => if (a =? b)%char then strip_prefix p' s' else None
  | _ :: _, [] => None
  end.

Definition hex_value (c : ascii) : option N :=
  let n := N_of_ascii c in
  if (48 <=? n)%N && (n <=? 57)%N then Some (n - 48)%N
  else if (97 <=? n)%N && (n <=? 102)%N then Some (n - 87)%N
  else if (65 <=? n)%N && (n <=? 70)%N then Some (n - 55)%N
  else None.

Definition hex4 (a b c d : ascii) : option N :=
  match hex_value a, hex_value b, hex_value c, hex_value d with
  | Some x, Some y, Some z, Some w => Some (((x * 16 + y) * 16 + z) * 16 + w)%N
  | _, _, _, _ => None
  end.

Definition unescape (e : ascii) : option ascii :=
  if (e =? dquote)%char then Some dquote
  else if (e =? backslash)%char then Some backslash
  else if (e =? "/")%char then Some "/"%char
  else if (e =? "b")%char then Some "008"%char
  else if (e =? "f")%char then Some "012"%char
  else if (e =? "n")%char then Some "010"%char
  else if (e =? "r")%char then Some "013"%char
  else if (e =? "t")%char then Some "009"%char
  else None.

Definition cons_char (c : ascii) (r : option (list ascii * list ascii))
  : option (list ascii * list ascii) :=
  match r with
  | Some (cs, rest) => Some (c :: cs, rest)
  | None => None
  end.

(** The characters of a string literal, after its opening quote. *)
Fixpoint parse_chars (s : list ascii) : option (list ascii * list ascii) :=
  match s with
  | [] => None
  | c :: r =>
      if (c =? dquote)%char then Some ([], r)
      else if (c =? backslash)%char then
        match r with
        | [] => None
        | e :: r1 =>
            match unescape e with
            | Some c' => cons_char c' (parse_chars r1)
            | None =>
                if (e =? "u")%char then
                  match r1 with
                  | h1 :: h2 :: h3 :: h4 :: r2 =>
                      match hex4 h1 h2 h3 h4 with
                      | Some n =>
                          if (n <? 128)%N
                          then cons_char (ascii_of_N n) (parse_chars r2)
                          else None
                      | None => None
                      end
                  | _ => None
                  end
                else None
            end
        end
      else if (N_of_ascii c <? 32)%N then None
      else cons_char c (parse_chars r)
  end.

Definition exponent_ahead (s : list ascii) : bool :=
  match s with
  | c :: _ => (c =? "e")%char || (c =? "E")%char
  | [] => false
  end.

(** The integer part of a JSON number: [0], or digits without a
    leading zero. *)
Definition plain_digits (u : Decimal.uint) : bool :=
  match u with
  | Decimal.Nil => false
  | Decimal.D0 Decimal.Nil => true
  | Decimal.D0 _ => false
  | _ => true
  end.

Definition signed (neg : bool) (n : N) : Z :=
  if neg then - Z.of_N n else Z.of_N n.

(** The rest of a number, after its sign and the digits of its integer
    part [n]: the end of an integer, or a point and a fraction. *)
Definition after_integer (neg : bool) (n : N) (tail : list ascii)
  : option (json * list ascii) :=
  if exponent_ahead tail then None
  else
    match tail with
    | c :: r1 =>
        if (c =? ".")%char then
          let '(f, r2) := read_digits r1 in
          match f with
          | Decimal.Nil => None
          | _ =>
              if exponent_ahead r2 then None
              else
                match DecimalFacts.nztail f with
                | Decimal.Nil => Some (JNum (signed neg n), r2)
                | f' => Some (JDec neg n f', r2)
                end
          end
        else Some (JNum (signed neg n), tail)
    | [] => Some (JNum (signed neg n), tail)
    end.

Definition parse_number (s : list ascii) : option (json * list ascii) :=
  let '(neg, s1) :=
    match s with
    | c :: r => if (c =? "-")%char then (true, r) else (false, s)
    | [] => (false, s)
    end in
  let '(u, r) := read_digits s1 in
  if plain_digits u then after_integer neg (N.of_uint u) r else None.

(** Members as [JSON.parse] creates them: a repeated key keeps its
    first position and takes the last value.  (Members named by array
    indexes, which JavaScript enumerates first, are kept in text order
    here; see [printed_plainly].) *)
Definition build_object (members : list (string * json)) : json :=
  JObj (fold_left (fun obj kv => set (fst kv) (snd kv) obj) members []).

Fixpoint parse_value (fuel : nat) (s : list ascii) {struct fuel}
  : option (json * list ascii) :=
  match fuel with
  | O => None
  | S fuel =>
      match skip_ws s with
      | [] => None
      | c :: r =>
          if (c =? "n")%char then
            match strip_prefix (chars "ull") r with
            | Some r' => Some (JNull, r')
            | None => None
            end
          else if (c =? "t")%char then
            match strip_prefix (chars "rue") r with
            | Some r' => Some (JBool true, r')
            | None => None
            end
          else if (c =? "f")%char then
            match strip_prefix (chars "alse") r with
            | Some r' => Some (JBool false, r')
            | None => None
            end
          else if (c =? dquote)%char then
            match parse_chars r with
            | Some (cs, r') => Some (JStr (string_of_list_ascii cs), r')
            | None => None
            end
          else if (c =? "[")%char then
            match skip_ws r with
            | [] => None
            | c' :: r' =>
                if (c' =? "]")%char then Some (JArr [], r')
                else
                  match parse_elements fuel r with
                  | Some (items, r'') => Some (JArr items, r'')
                  | None => None
                  end
            end
          else if (c =? "{")%char then
            match skip_ws r with
            | [] => None
            | c' :: r' =>
                if (c' =? "}")%char then Some (JObj [], r')
                else
                  match parse_members fuel r with
                  | Some (members, r'') => Some (build_object members, r'')
                  | None => None
                  end
            end
          else
            parse_number (c :: r)
      end
  end

with parse_elements (fuel : nat) (s : list ascii) {struct fuel}
  : option (list json * list ascii) :=
  match fuel with
  | O => None
  | S fuel =>
      match parse_value fuel s with
      | None => None
      | Some (v, r) =>
          match skip_ws r with
          | [] => None
          | c :: r' =>
              if (c =? ",")%char then
                match parse_elements fuel r' with
                | Some (vs, r'') => Some (v :: vs, r'')
                | None => None
                end
              else if (c =? "]")%char then Some ([v], r')
              else None
          end
      end
  end

with parse_members (fuel : nat) (s : list ascii) {struct fuel}
  : option (list (string * json) * list ascii) :=
  match fuel with
  | O => None
  | S fuel =>
      match skip_ws s with
      | [] => None
      | q :: r =>
          if (q =? dquote)%char then
            match parse_chars r with
            | None => None
            | Some (k, r1) =>
                match skip_ws r1 with
                | [] => None
                | colon :: r2 =>
                    if (colon =? ":")%char then
                      match parse_value fuel r2 with
                      | None => None
                      | Some (v, r3) =>
                          match skip_ws r3 with
                          | [] => None
                          | c :: r4 =>
                              if (c =? ",")%char then
                                match parse_members fuel r4 with
                                | Some (ms, r5) =>
                                    Some ((string_of_list_ascii k, v) :: ms, r5)
                                | None => None
                                end
                              else if (c =? "}")%char
                              then Some ([(string_of_list_ascii k, v)], r4)
                              else None
                          end
                      end
                    else None
                end
            end
          else None
      end
  end.

Definition parse_text (s : list ascii) : option json :=
  match parse_value (S (List.length s)) s with
  | Some (v, r) =>
      match skip_ws r with
      | [] => Some v
      | _ :: _ => None
      end
  | None => None
  end.

Definition parse (text : string) : option json := parse_text (chars text).

End JSON.

(** ** SQLite values and column affinity *)

Inductive sqlval : Type :=
| SNull
| SInteger (z : Z)
| SText (s : string).

(** The numbers the driver binds as INTEGER: those equal to their
    32-bit integer value.  Any other number is bound as REAL, which a
    TEXT column stores with a fraction (as in [4811300012.0]); REAL
    values are not represented, and the properties that depend on the
    stored text of a number are stated for numbers of 32 bits. *)
Definition int32 (z : Z) : bool :=
  (- 2147483648 <=? z)%Z && (z <=? 2147483647)%Z.

(** How the driver binds a JavaScript argument to a [?]: a string as
    TEXT, a number (of 32 bits) as INTEGER, a boolean as 1 or 0,
    [null] as NULL; an [undefined] argument is left unbound, which
    SQLite reads as NULL. *)
Definition bind_parameter (v : jsval) : sqlval :=
  match v with
  | None => SNull
  | Some PNull => SNull
  | Some (PBool b) => SInteger (if b then 1 else 0)
  | Some (PNum n) => SInteger n
  | Some (PStr s) => SText s
  end.

(** A column declared TEXT keeps NULL or text; a number is stored as its
    text. *)
Definition text_affinity (v : sqlval) : option string :=
  match v with
  | SNull => None
  | SInteger z => Some (decimal z)
  | SText s => Some s
  end.

(** A well-formed integer literal: an optional sign, then digits only. *)
Definition integer_literal (s : string) : option Z :=
  let '(neg, ds) :=
    match chars s with
    | c :: r =>
        if (c =? "-")%char then (true, r)
        else if (c =? "+")%char then (false, r)
        else (false, c :: r)
    | [] => (false, [])
    end in
  match read_digits ds with
  | (Decimal.Nil, _) => None
  | (u, []) => let n := Z.of_N (N.of_uint u) in Some (if neg then - n else n)
  | (_, _ :: _) => None
  end.

Definition int64 (z : Z) : bool :=
  (- 9223372036854775808 <=? z)%Z && (z <=? 9223372036854775807)%Z.

(** A column declared INTEGER turns text that is a well-formed integer
    literal into an INTEGER; text that is not numeric stays TEXT.
    SQLite also converts numerals written with a fraction, an exponent,
    surrounding blanks, or too large for 64 bits (to REAL or INTEGER);
    those are not represented and are left as text here. *)
Definition integer_affinity (v : sqlval) : sqlval :=
  match v with
  | SText s =>
      match integer_literal s with
      | Some z => if int64 z then SInteger z else SText s
      | None => SText s
      end
  | _ => v
  end.

(** ** The two tables

    [CREATE TABLE precincts (pctkey TEXT PRIMARY KEY, county TEXT,
    jurisdiction TEXT, district TEXT, geometry TEXT)] and
    [CREATE TABLE results (pctkey TEXT, office TEXT, candidate TEXT,
    votes INTEGER, party TEXT)].  A TEXT column holds [None] (NULL) or a
    string. *)

Module precincts.
Record row : Type := {
  pctkey : option string;
  county : option string;
  jurisdiction : option string;
  district : option string;
  geometry : option string
}.
End precincts.

Module results.
Record row : Type := {
  pctkey : option string;
  office : option string;
  candidate : option string;
  votes : sqlval;
  party : option string
}.
End results.

Record database : Type := {
  precincts_table : list precincts.row;
  results_table : list results.row
}.

Inductive sqlite_error : Type :=
| SQLITE_CONSTRAINT.

(** [column = ?]: never true when either side is NULL. *)
Definition sql_eq (column param : option string) : bool :=
  match column, param with
  | Some a, Some b => (a =? b)%string
  | _, _ => false
  end.

Definition is_not_null (v : option string) : bool :=
  match v with Some _ => true | None => false end.

(** Sort order of stored values: NULL first, then text by the BINARY
    collation (byte by byte). *)
Definition text_compare (a b : option string) : comparison :=
  match a, b with
  | None, None => Eq
  | None, Some _ => Lt
  | Some _, None => Gt
  | Some x, Some y => String.compare x y
  end.

Definition text_leb (a b : option string) : bool :=
  match text_compare a b with Gt => false | _ => true end.

Definition text_eq_dec (a b : option string) : {a = b} + {a <> b}.
Proof. decide equality. apply string_dec. Defined.

Section OrderBy.
Context {A : Type} (leb : A -> A -> bool).

Fixpoint insert_sorted (x : A) (l : list A) : list A :=
  match l with
  | [] => [x]
  | y :: rest => if leb x y then x :: l else y :: insert_sorted x rest
  end.

(** ORDER BY, as an insertion sort. *)
Definition order_by (l : list A) : list A := fold_right insert_sorted [] l.
End OrderBy.

(** SELECT DISTINCT on one column. *)
Definition distinct (l : list (option string)) : list (option string) :=
  nodup text_eq_dec l.

(** [SELECT DISTINCT column FROM t WHERE condition AND column IS NOT
    NULL ORDER BY column] *)
Definition select_column {row : Type} (column : row -> option string)
  (condition : row -> bool) (t : list row) : list (option string) :=
  order_by text_leb
    (distinct
       (map column
          (filter (fun r => condition r && is_not_null (column r)) t))).

(** Strictly increasing in the byte order of text: sorted ascending,
    and without duplicates. *)
Definition ascending (names : list string) : Prop :=
  StronglySorted (fun a b => String.ltb a b = true) names.

(** ** Results loader: the CSV [data] handler

    A CSV record is an object from header names to cell strings.
    [db.run("INSERT INTO results ... VALUES (?, ?, ?, ?, ?)",
    [row.pctkey, row.office, row.candidate, row.votes,
    row.party_simplified])]. *)

Definition csv_row : Type := object string.

Definition field (name : string) (row : csv_row) : jsval :=
  option_map PStr (get name row).

(** The five bound arguments, in order. *)
Definition results_args (row : csv_row) : list jsval :=
  [field "pctkey" row; field "office" row; field "candidate" row;
   field "votes" row; field "party_simplified" row].

Definition insert_result (args : list jsval) : results.row :=
  let arg i := bind_parameter (nth i args None) in
  {| results.pctkey := text_affinity (arg 0%nat);
     results.office := text_affinity (arg 1%nat);
     results.candidate := text_affinity (arg 2%nat);
     results.votes := integer_affinity (arg 3%nat);
     results.party := text_affinity (arg 4%nat) |}.

Definition on_data (t : list results.row) (row : csv_row) : list results.row :=
  t ++ [insert_result (results_args row)].

Definition import_csv (rows : list csv_row) : list results.row :=
  fold_left on_data rows [].

(** ** Precincts loader *)

(** A GeoJSON feature.  [properties] may be [null] ([None]); its values
    are primitives.  [geometry] is any JSON value.  A feature without
    a [geometry] member, and property values that are arrays or
    objects, are not represented. *)
Record feature : Type := {
  properties : option (object jsprim);
  geometry : json
}.

(** The arguments of [stmt.run]. *)
Record precinct_args : Type := {
  arg_pctkey : jsval;
  arg_county : jsval;
  arg_jurisdiction : jsval;
  arg_district : string;
  arg_geometry : string
}.

(** Lines 76-85: the mapping of one feature. *)
Definition map_feature (index : nat) (props : object jsprim) (geom : json)
  : precinct_args :=
  let pctkey :=
    js_or (get "pctkey" props)
          (Some (PStr ("precinct_" ++ decimal (Z.of_nat index)))) in
  let county := js_or (get "county" props) (Some (PStr "Unknown")) in
  let jurisdiction := js_or (get "city" props) (Some (PStr "Unknown")) in
  let district :=
    js_or (js_or (js_or (get "us_congress" props) (get "state_senate" props))
                 (get "state_house" props))
          (Some (PStr "Unknown")) in
  let geometry := JSON.stringify geom in
  {| arg_pctkey := pctkey;
     arg_county := county;
     arg_jurisdiction := jurisdiction;
     arg_district := ToString district;
     arg_geometry := geometry |}.

(** The row an INSERT writes: each bound value under TEXT affinity. *)
Definition precinct_row (a : precinct_args) : precincts.row :=
  {| precincts.pctkey := text_affinity (bind_parameter (arg_pctkey a));
     precincts.county := text_affinity (bind_parameter (arg_county a));
     precincts.jurisdiction := text_affinity (bind_parameter (arg_jurisdiction a));
     precincts.district := text_affinity (bind_parameter (Some (PStr (arg_district a))));
     precincts.geometry := text_affinity (bind_parameter (Some (PStr (arg_geometry a)))) |}.

(** [stmt.run]: the INSERT, refused with SQLITE_CONSTRAINT when the
    PRIMARY KEY is already taken. *)
Definition stmt_run (a : precinct_args) (t : list precincts.row)
  : list precincts.row * option sqlite_error :=
  let r := precinct_row a in
  if existsb (fun old => sql_eq (precincts.pctkey old) (precincts.pctkey r)) t
  then (t, Some SQLITE_CONSTRAINT)
  else (t ++ [r], None).

(** [precinctsGeo.features.forEach]: a feature whose [properties] is
    [null] makes [props.pctkey] throw, which ends the loop inside the
    surrounding [try]; the callback of [stmt.run] only logs. *)
Fixpoint forEach (index : nat) (features : list feature)
  (t : list precincts.row) : list precincts.row :=
  match features with
  | [] => t
  | feat :: rest =>
      match properties feat with
      | None => t
      | Some props =>
          forEach (S index) rest
                  (fst (stmt_run (map_feature index props (geometry feat)) t))
      end
  end.

Definition import_geojson (features : list feature) : list precincts.row :=
  forEach 0 features [].

(** The store once both loaders have finished. *)
Definition startup (csv : list csv_row) (features : list feature) : database :=
  {| precincts_table := import_geojson features;
     results_table := import_csv csv |}.

(** ** Query service *)

(** What a handler does with [res]. *)
Inductive response : Type :=
| json_200 (body : json)
| json_500 (body : json)
| uncaught_exception.

(** The [(err, rows)] pair handed to a [db.all] callback.  Statements
    over the two tables always deliver rows here; I/O faults of the
    database file are outside the model. *)
Inductive db_all (A : Type) : Type :=
| Rows (rows : list A)
| Err (message : string).
Arguments Rows {A} rows.
Arguments Err {A} message.

Definition error_body (message : string) : json :=
  JObj [("error", JStr message)].

(** [!p] and [p === s] for a query-string parameter, which is absent
    ([None]) or a string. *)
Definition missing (p : option string) : bool :=
  match p with
  | None => true
  | Some s => (s =? "")%string
  end.

Definition is_string (p : option string) (s : string) : bool :=
  match p with
  | Some x => (x =? s)%string
  | None => false
  end.

(** A stored TEXT value as JSON. *)
Definition text_json (v : option string) : json :=
  match v with
  | Some s => JStr s
  | None => JNull
  end.

(** A stored value as JSON.  The driver hands an INTEGER to JavaScript
    as a number, which is that integer when it is a safe one. *)
Definition value_json (v : sqlval) : json :=
  match v with
  | SNull => JNull
  | SInteger z => JNum z
  | SText s => JStr s
  end.

(** [SELECT DISTINCT county FROM precincts WHERE county IS NOT NULL
    ORDER BY county] *)
Definition select_counties (db : database) : db_all (option string) :=
  Rows (select_column precincts.county (fun _ => true) (precincts_table db)).

Definition api_filters (db : database) : response :=
  match select_counties db with
  | Err message => json_500 (error_body message)
  | Rows counties => json_200 (JArr (map text_json counties))
  end.

(** [SELECT DISTINCT jurisdiction FROM precincts WHERE county=? AND
    jurisdiction IS NOT NULL ORDER BY jurisdiction] *)
Definition select_jurisdictions (db : database) (county : option string)
  : db_all (option string) :=
  Rows (select_column precincts.jurisdiction
          (fun r => sql_eq (precincts.county r) county)
          (precincts_table db)).

Definition api_jurisdictions (db : database) (county : option string) : response :=
  if missing county || is_string county "Select County"
  then json_200 (JArr [])
  else
    match select_jurisdictions db county with
    | Err message => json_500 (error_body message)
    | Rows rows => json_200 (JArr (map text_json rows))
    end.

(** [SELECT DISTINCT district FROM precincts WHERE county=? AND
    jurisdiction=? AND district IS NOT NULL ORDER BY district] *)
Definition select_districts (db : database) (county jurisdiction : option string)
  : db_all (option string) :=
  Rows (select_column precincts.district
          (fun r => sql_eq (precincts.county r) county
                    && sql_eq (precincts.jurisdiction r) jurisdiction)
          (precincts_table db)).

Definition api_districts (db : database) (county jurisdiction : option string)
  : response :=
  if missing county || missing jurisdiction
     || is_string county "Select County"
     || is_string jurisdiction "Select Jurisdiction"
  then json_200 (JArr [])
  else
    match select_districts db county jurisdiction with
    | Err message => json_500 (error_body message)
    | Rows rows => json_200 (JArr (map text_json rows))
    end.

(** The WHERE clause [/api/precincts] assembles: one equality per
    parameter that is given and is not its placeholder. *)
Definition active (p : option string) (placeholder : string) : option string :=
  if negb (missing p) && negb (is_string p placeholder) then p else None.

Definition where_clause (county jurisdiction district : option string)
  : list ((precincts.row -> option string) * string) :=
  (match active county "Select County" with
   | Some v => [(precincts.county, v)]
   | None => []
   end)
  ++ (match active jurisdiction "Select Jurisdiction" with
      | Some v => [(precincts.jurisdiction, v)]
      | None => []
      end)
  ++ (match active district "Select District" with
      | Some v => [(precincts.district, v)]
      | None => []
      end).

(** [SELECT pctkey, county, jurisdiction, district, geometry FROM
    precincts WHERE 1=1 AND ...] *)
Definition select_precincts (db : database)
  (conditions : list ((precincts.row -> option string) * string))
  : db_all precincts.row :=
  Rows (filter (fun r =>
                  forallb (fun c => sql_eq (fst c r) (Some (snd c))) conditions)
               (precincts_table db)).

(** [JSON.parse(row.geometry)]; a NULL column reads as [null], which
    [JSON.parse] takes as the text of [null]. *)
Definition parse_geometry (v : option string) : option json :=
  JSON.parse (ToString (Some (match v with Some s => PStr s | None => PNull end))).

Definition feature_json (r : precincts.row) (geom : json) : json :=
  JObj [("type", JStr "Feature");
        ("properties",
         JObj [("pctkey", text_json (precincts.pctkey r));
               ("county", text_json (precincts.county r));
               ("jurisdiction", text_json (precincts.jurisdiction r));
               ("district", text_json (precincts.district r))]);
        ("geometry", geom)].

(** [rows.map(row => ...)]: [None] when some [JSON.parse] throws. *)
Fixpoint map_features (rows : list precincts.row) : option (list json) :=
  match rows with
  | [] => Some []
  | r :: rest =>
      match parse_geometry (precincts.geometry r) with
      | None => None
      | Some g =>
          match map_features rest with
          | Some fs => Some (feature_json r g :: fs)
          | None => None
          end
      end
  end.

Definition api_precincts (db : database) (county jurisdiction district : option string)
  : response :=
  match select_precincts db (where_clause county jurisdiction district) with
  | Err message => json_500 (error_body message)
  | Rows rows =>
      match map_features rows with
      | Some features => json_200 (JArr features)
      | None => uncaught_exception
      end
  end.

(** [SELECT * FROM results WHERE pctkey=?] *)
Definition select_results (db : database) (pctkey : option string)
  : db_all results.row :=
  Rows (filter (fun r => sql_eq (results.pctkey r) pctkey) (results_table db)).

Definition result_json (r : results.row) : json :=
  JObj [("pctkey", text_json (results.pctkey r));
        ("office", text_json (results.office r));
        ("candidate", text_json (results.candidate r));
        ("votes", value_json (results.votes r));
        ("party", text_json (results.party r))].

Definition api_results (db : database) (pctkey : option string) : response :=
  match select_results db pctkey with
  | Err message => json_500 (error_body message)
  | Rows rows => json_200 (JArr (map result_json rows))
  end.

(** [SELECT county, jurisdiction, district, COUNT( * ) as count FROM
    precincts GROUP BY county, jurisdiction, district LIMIT 20].
    Without ORDER BY the order of the groups is SQLite's choice; its
    sorter gives them in key order, as here. *)
Definition group_key : Type := (option string * option string * option string)%type.

Definition key_of (r : precincts.row) : group_key :=
  (precincts.county r, precincts.jurisdiction r, precincts.district r).

Definition key_eq_dec (a b : group_key) : {a = b} + {a <> b}.
Proof. repeat decide equality; apply string_dec. Defined.

Definition key_leb (a b : group_key) : bool :=
  let '(ca, ja, da) := a in
  let '(cb, jb, db) := b in
  match text_compare ca cb with
  | Lt => true
  | Gt => false
  | Eq =>
      match text_compare ja jb with
      | Lt => true
      | Gt => false
      | Eq => text_leb da db
      end
  end.

Definition group_by (t : list precincts.row) : list (group_key * nat) :=
  let keys := map key_of t in
  map (fun k => (k, count_occ key_eq_dec keys k))
      (order_by key_leb (nodup key_eq_dec keys)).

Definition select_debug (db : database) : db_all (group_key * nat) :=
  Rows (firstn 20 (group_by (precincts_table db))).

Definition group_json (g : group_key * nat) : json :=
  let '((c, j, d), n) := g in
  JObj [("county", text_json c);
        ("jurisdiction", text_json j);
        ("district", text_json d);
        ("count", JNum (Z.of_nat n))].

Definition api_debug (db : database) : response :=
  match select_debug db with
  | Err message => json_500 (error_body message)
  | Rows rows =>
      json_200
        (JObj [("precinctCount", JNum (Z.of_nat (List.length rows)));
               ("sampleData", JArr (map group_json rows));
               ("database", JStr "./db/database.sqlite")])
  end.


(** ** Vocabulary of the properties *)

(** The PRIMARY KEY invariant of the precincts table. *)
Definition primary_key (t : list precincts.row) : Prop :=
  NoDup (map precincts.pctkey t)
  /\ Forall (fun r => precincts.pctkey r <> None) t.

(** The loop reaches position [k] when no earlier feature has [null]
    properties. *)
Definition reached (features : list feature) (k : nat) : Prop :=
  forall j feat, (j < k)%nat -> nth_error features j = Some feat ->
                 properties feat <> None.

(** The first truthy value of a list, in order. *)
Fixpoint first_truthy (vs : list jsval) : jsval :=
  match vs with
  | [] => None
  | v :: rest => if truthy v then v else first_truthy rest
  end.

(** [v] when truthy, else the default string. *)
Definition or_default (v : jsval) (d : string) : jsval :=
  if truthy v then v else Some (PStr d).

(** A JSON value as JavaScript holds it: the keys of an object are
    pairwise distinct, and a fraction is in printed form. *)
Fixpoint distinct_keys (keys : list string) : bool :=
  match keys with
  | [] => true
  | k :: rest => negb (existsb (String.eqb k) rest) && distinct_keys rest
  end.

Fixpoint well_formed (v : json) : bool :=
  match v with
  | JPrim _ => true
  | JDec _ _ frac => canonical_fraction frac
  | JArr items => forallb well_formed items
  | JObj members =>
      distinct_keys (map fst members)
      && forallb (fun kv => well_formed (snd kv)) members
  end.

(** A property name that is an array index: the decimal text of an
    integer from 0 to 2^32 - 2. *)
Definition array_index (name : string) : option Z :=
  match integer_literal name with
  | Some z =>
      if (0 <=? z)%Z && (z <? 4294967295)%Z && (decimal z =? name)%string
      then Some z else None
  | None => None
  end.




(** The numbers among the values of a properties object are integers
    of 32 bits. *)
Definition small_numbers (props : object jsprim) : bool :=
  forallb (fun kv => match snd kv with
                     | PNum n => int32 n
                     | _ => true
                     end)
          props.

(** Fuel that is enough to parse the text of a value. *)
Fixpoint weight (v : json) : nat :=
  match v with
  | JPrim _ => 1
  | JDec _ _ _ => 1
  | JArr items => S (list_sum (map (fun x => S (weight x)) items))
  | JObj members => S (list_sum (map (fun kv => S (weight (snd kv))) members))
  end.

(** The text of one member of an object. *)
Definition print_member (kv : string * json) : list ascii :=
  JSON.quote (fst kv) ++ ":"%char :: JSON.print (snd kv).

Definition starts_fraction (s : list ascii) : bool :=
  match s with
  | c :: _ => (c =? ".")%char || (c =? "e")%char || (c =? "E")%char
  | [] => false
  end.

(** What may follow the text of a value: not a digit, and not the start
    of a fraction or an exponent. *)
Definition value_ends (rest : list ascii) : Prop :=
  no_digit_ahead rest /\ starts_fraction rest = false.

(** [parses v]: with enough fuel the text of [v], whatever delimiter
    follows, reads back as [v]. *)
Definition parses (v : json) : Prop :=
  forall fuel rest,
    (weight v <= fuel)%nat -> value_ends rest ->
    JSON.parse_value fuel (JSON.print v ++ rest) = Some (v, rest).

(** The first character of the text of a value. *)
Definition value_start (c : ascii) : bool :=
  (c =? "n")%char || (c =? "t")%char || (c =? "f")%char || (c =? dquote)%char
  || (c =? "[")%char || (c =? "{")%char || (c =? "-")%char || is_digit c.

(** ** Sample data *)

Definition point (x y : Z) : json :=
  JObj [("type", JStr "Point"); ("coordinates", JArr [JNum x; JNum y])].

(** A triangle near Dallas, with coordinates such as [-96.797]. *)
Definition triangle : json :=
  JObj [("type", JStr "Polygon");
        ("coordinates",
         JArr [JArr [JArr [JDec true 96 (Decimal.D7 (Decimal.D9 (Decimal.D7 Decimal.Nil)));
                           JDec false 32 (Decimal.D7 (Decimal.D7 (Decimal.D6 (Decimal.D7 Decimal.Nil))))];
                     JArr [JDec true 96 (Decimal.D5 Decimal.Nil); JNum 33];
                     JArr [JDec true 97 (Decimal.D0 (Decimal.D2 (Decimal.D5 Decimal.Nil)));
                           JDec false 0 (Decimal.D5 Decimal.Nil)];
                     JArr [JDec true 96 (Decimal.D7 (Decimal.D9 (Decimal.D7 Decimal.Nil)));
                           JDec false 32 (Decimal.D7 (Decimal.D7 (Decimal.D6 (Decimal.D7 Decimal.Nil))))]]])].

(** A county of two precincts drawn as triangles. *)
Definition two_triangles : list feature :=
  [ {| properties := Some [("pctkey", PStr "T1"); ("county", PStr "Dallas")];
       geometry := triangle |};
    {| properties := Some [("county", PStr "Tarrant")];
       geometry := JArr [triangle; JNull; JStr "x"] |} ].

(** Two features with the same key. *)
Definition twice_P1 : list feature :=
  [ {| properties := Some [("pctkey", PStr "P1"); ("county", PStr "Dallas")];
       geometry := point 1 2 |};
    {| properties := Some [("pctkey", PStr "P1"); ("county", PStr "Tarrant")];
       geometry := point 3 4 |} ].

(** An empty key, and a district numbered zero. *)
Definition falsy_props : object jsprim :=
  [("pctkey", PStr ""); ("us_congress", PNum 0); ("state_senate", PNum 7)].

(** Districts 9 and 10 of one city, given as numbers. *)
Definition districts_9_10 : list feature :=
  [ {| properties := Some [("pctkey", PStr "A"); ("county", PStr "Dallas");
                           ("city", PStr "Irving"); ("us_congress", PNum 9)];
       geometry := point 0 0 |};
    {| properties := Some [("pctkey", PStr "B"); ("county", PStr "Dallas");
                           ("city", PStr "Irving"); ("us_congress", PNum 10)];
       geometry := point 1 1 |} ].

(** A precinct whose county is literally the placeholder text. *)
Definition placeholder_county : list feature :=
  [ {| properties := Some [("pctkey", PStr "S1"); ("county", PStr "Select County");
                           ("city", PStr "Dallas")];
       geometry := point 0 0 |} ].

(** A CSV with a [party] column and no [party_simplified] column. *)
Definition csv_party_only : list csv_row :=
  [ [("pctkey", "P1"); ("office", "Mayor"); ("candidate", "A");
     ("votes", "10"); ("party", "X")];
    [("pctkey", "P1"); ("office", "Mayor"); ("candidate", "B");
     ("votes", "007"); ("party", "Y")] ].

Definition csv_party_only_row : csv_row :=
  [("pctkey", "P1"); ("office", "Mayor"); ("candidate", "B");
   ("votes", "007"); ("party", "Y")].

(** ** The loaders' counters and the verification queries *)

(** The loop of lines 75-97 together with [precinctsCount] (lines 60
    and 91): the counter is incremented once for every feature whose
    callback runs to its end, whether or not its INSERT is accepted. *)
Fixpoint forEach_counting (index : nat) (features : list feature)
  (t : list precincts.row) (precinctsCount : nat)
  : list precincts.row * nat :=
  match features with
  | [] => (t, precinctsCount)
  | feat :: rest =>
      match properties feat with
      | None => (t, precinctsCount)
      | Some props =>
          forEach_counting (S index) rest
            (fst (stmt_run (map_feature index props (geometry feat)) t))
            (S precinctsCount)
      end
  end.

(** The [data] handler with [resultsCount] (lines 42 and 53). *)
Definition on_data_counting (st : list results.row * nat) (row : csv_row)
  : list results.row * nat :=
  (on_data (fst st) row, S (snd st)).

Definition import_csv_counting (rows : list csv_row) : list results.row * nat :=
  fold_left on_data_counting rows ([], 0%nat).

(** [SELECT COUNT( * ) as count FROM precincts] (line 103). *)
Definition select_count (db : database) : nat :=
  List.length (precincts_table db).

(** [SELECT county, COUNT( * ) as count FROM precincts GROUP BY county]
    (line 107). *)
Definition select_county_counts (db : database) : list (option string * nat) :=
  let counties := map precincts.county (precincts_table db) in
  map (fun c => (c, count_occ text_eq_dec counties c))
      (order_by text_leb (nodup text_eq_dec counties)).

(** ** Vocabulary of the further properties *)

(** The rows the loop tries to insert, in order: one for each feature
    up to the first whose [properties] is [null]. *)
Fixpoint attempted (index : nat) (features : list feature) : list precincts.row :=
  match features with
  | [] => []
  | feat :: rest =>
      match properties feat with
      | None => []
      | Some props =>
          precinct_row (map_feature index props (geometry feat))
            :: attempted (S index) rest
      end
  end.

(** A row passes the filters of a precincts request: each parameter
    that is given, not empty and not its placeholder equals the row's
    column. *)
Definition passes (p : option string) (placeholder : string)
  (column : option string) : Prop :=
  match p with
  | None => True
  | Some v => v = "" \/ v = placeholder \/ column = Some v
  end.

Definition selected (county jurisdiction district : option string)
  (r : precincts.row) : Prop :=
  passes county "Select County" (precincts.county r)
  /\ passes jurisdiction "Select Jurisdiction" (precincts.jurisdiction r)
  /\ passes district "Select District" (precincts.district r).

(** A request parameter of a wider request: left out, or the same. *)
Definition wider (wide narrow : option string) : Prop :=
  wide = None \/ wide = narrow.

(** The CSV record is for the precinct [K]. *)
Definition record_of (K : string) (row : csv_row) : bool :=
  match get "pctkey" row with
  | Some k => (k =? K)%string
  | None => false
  end.

(** A vote count that is stored and answered here exactly as by the
    code: the cell is missing, or holds no digit at all (it stays
    text), or is an integer literal whose value is a safe integer.
    Other numerals (with a fraction, an exponent or blanks around
    them, or beyond the safe integers) are converted or rounded by
    SQLite and the driver in ways that are not represented. *)
Definition plain_votes (row : csv_row) : bool :=
  match get "votes" row with
  | None => true
  | Some s =>
      match integer_literal s with
      | Some z => safe_integer z
      | None => negb (existsb is_digit (chars s))
      end
  end.

(** What the results operation is to answer for a CSV record with a
    plain vote count: the record's cells as strings, [null] for a
    missing cell, the votes as a number when they are an integer
    literal, and the party taken from [party_simplified]. *)
Definition answer_of (row : csv_row) : json :=
  JObj [("pctkey", text_json (get "pctkey" row));
        ("office", text_json (get "office" row));
        ("candidate", text_json (get "candidate" row));
        ("votes",
         match get "votes" row with
         | None => JNull
         | Some s =>
             match integer_literal s with
             | Some z => JNum z
             | None => JStr s
             end
         end);
        ("party", text_json (get "party_simplified" row))].

(** ** The map client (public/main.js) *)

(** *** [updateMap]: the query of the precincts request

    A selector holds [""] for its placeholder option, or a value.
    [URLSearchParams] is a list of name and value pairs; the server
    reads a name as the value of its pair, or finds none. *)
Definition URLSearchParams : Type := object string.

Definition params_append (name value : string) (params : URLSearchParams)
  : URLSearchParams :=
  params ++ [(name, value)].

(** Lines 124-127. *)
Definition updateMap_params (county jurisdiction district : string)
  : URLSearchParams :=
  let params := [] in
  let params := if (county =? "")%string then params
                else params_append "county" county params in
  let params := if (jurisdiction =? "")%string then params
                else params_append "jurisdiction" jurisdiction params in
  let params := if (district =? "")%string then params
                else params_append "district" district params in
  params.

(** *** [showElectionResults]: grouping and totals

    A result as the client receives it: an object with primitive
    members. *)
Definition result : Type := object jsprim.

(** The names every object inherits from [Object.prototype]; each of
    them reads as a truthy value that has no [push]. *)
Definition Object_prototype : list string :=
  ["constructor"; "hasOwnProperty"; "isPrototypeOf"; "propertyIsEnumerable";
   "toLocaleString"; "toString"; "valueOf"; "__proto__";
   "__defineGetter__"; "__defineSetter__"; "__lookupGetter__";
   "__lookupSetter__"].

Definition inherited (name : string) : bool :=
  existsb (String.eqb name) Object_prototype.

(** The property key [result.office] is used as. *)
Definition office_key (r : result) : string := ToString (get "office" r).

(** Lines 246-252, from a given [resultsByOffice]; [None] is the
    TypeError of calling [push] on an inherited member. *)
Fixpoint group_results (results : list result)
  (resultsByOffice : object (list result)) : option (object (list result)) :=
  match results with
  | [] => Some resultsByOffice
  | r :: rest =>
      match get (office_key r) resultsByOffice with
      | Some officeResults =>
          group_results rest
            (set (office_key r) (officeResults ++ [r]) resultsByOffice)
      | None =>
          if inherited (office_key r) then None
          else group_results rest (set (office_key r) [r] resultsByOffice)
      end
  end.

Definition resultsByOffice (results : list result)
  : option (object (list result)) :=
  group_results results [].

(** [Object.keys]: array indexes in ascending order, then the other
    names in order of creation. *)
Definition Object_keys {A : Type} (obj : object A) : list string :=
  let names := map fst obj in
  map decimal
      (order_by Z.leb
         (flat_map (fun k => match array_index k with
                             | Some z => [z]
                             | None => []
                             end) names))
  ++ filter (fun k => match array_index k with
                      | Some _ => false
                      | None => true
                      end) names.

(** The number nearest to an integer: the integer itself up to 2^53,
    and beyond that the nearest integer with 53 significant bits, the
    even one of two equally near.  (Infinity, from 2^1024 on, is not
    represented.) *)
Definition to_double (z : Z) : Z :=
  let m := Z.abs z in
  let e := (Z.log2 m - 52)%Z in
  if (e <=? 0)%Z then z
  else
    let q := Z.shiftr m e in
    let r := (m - Z.shiftl q e)%Z in
    let half := Z.shiftl 1 (e - 1) in
    let up := (half <? r)%Z || ((half =? r)%Z && Z.odd q) in
    (Z.sgn z * Z.shiftl (if up then q + 1 else q) e)%Z.

(** [parseInt(v)], with [None] for NaN: the number nearest to the
    integer read.  Leading blanks are the ASCII ones. *)
Definition is_blank (c : ascii) : bool :=
  (c =? " ")%char || (c =? "009")%char || (c =? "010")%char
  || (c =? "011")%char || (c =? "012")%char || (c =? "013")%char.

Fixpoint trim_start (s : list ascii) : list ascii :=
  match s with
  | c :: r => if is_blank c then trim_start r else s
  | [] => []
  end.

(** The value of the longest prefix of hexadecimal digits, if any. *)
Fixpoint read_hex (s : list ascii) (acc : option N) : option N :=
  match s with
  | c :: r =>
      match JSON.hex_value c with
      | Some d =>
          read_hex r (Some (16 * match acc with Some a => a | None => 0 end + d)%N)
      | None => acc
      end
  | [] => acc
  end.

Definition decimal_prefix (s : list ascii) : option N :=
  match read_digits s with
  | (Decimal.Nil, _) => None
  | (u, _) => Some (N.of_uint u)
  end.

Definition parseInt (v : jsval) : option Z :=
  let s := trim_start (chars (ToString v)) in
  let '(neg, s1) :=
    match s with
    | c :: r =>
        if (c =? "-")%char then (true, r)
        else if (c =? "+")%char then (false, r)
        else (false, s)
    | [] => (false, [])
    end in
  let magnitude :=
    match s1 with
    | z :: x :: r =>
        if (z =? "0")%char && ((x =? "x")%char || (x =? "X")%char)
        then read_hex r None
        else decimal_prefix s1
    | _ => decimal_prefix s1
    end in
  option_map (fun n => to_double (if neg then (- Z.of_N n)%Z else Z.of_N n))
             magnitude.

(** [a + b] on numbers that are integers: the number nearest to the
    sum; NaN when either is. *)
Definition js_add (a b : option Z) : option Z :=
  match a, b with
  | Some x, Some y => Some (to_double (x + y))
  | _, _ => None
  end.

(** Line 260: [officeResults.reduce((sum, r) => sum + parseInt(r.votes), 0)]. *)
Definition totalVotes (officeResults : list result) : option Z :=
  fold_left (fun sum r => js_add sum (parseInt (get "votes" r)))
            officeResults (Some 0%Z).

(** Line 276: [totalVotes > 0], false for NaN; when false every
    percentage of the office is shown as 0.0. *)
Definition has_votes (total : option Z) : bool :=
  match total with
  | Some t => (0 <? t)%Z
  | None => false
  end.

(** The members of a row of [/api/results], as the client reads them
    once the body has gone through [res.json] on the server and
    [res.json()] on the client.  A stored INTEGER is read as that
    integer when it is a safe one. *)
Definition prim_of_text (v : option string) : jsprim :=
  match v with
  | Some s => PStr s
  | None => PNull
  end.

Definition prim_of_value (v : sqlval) : jsprim :=
  match v with
  | SNull => PNull
  | SInteger z => PNum z
  | SText s => PStr s
  end.

Definition received (r : results.row) : result :=
  [("pctkey", prim_of_text (results.pctkey r));
   ("office", prim_of_text (results.office r));
   ("candidate", prim_of_text (results.candidate r));
   ("votes", prim_of_value (results.votes r));
   ("party", prim_of_text (results.party r))].

(** The votes of a result, when they are a number. *)
Definition votes_of (r : result) : Z :=
  match get "votes" r with
  | Some (PNum z) => z
  | _ => 0%Z
  end.

(** The vote count of a result is a number (an integer). *)
Definition numeric_votes (r : result) : bool :=
  match get "votes" r with
  | Some (PNum _) => true
  | _ => false
  end.

(** The office of a result is not a number beyond the safe integers,
    so that its property key is the text given by [office_key].  (The
    server sends a text or [null].) *)
Definition plain_office (r : result) : bool :=
  match get "office" r with
  | Some (PNum n) => safe_integer n
  | _ => true
  end.

Definition sumZ (l : list Z) : Z := fold_right Z.add 0%Z l.

(** The votes of the results added up without their signs.  When this
    is a safe integer, so are all the votes and every sum of some of
    them, and the additions of the client are exact. *)
Definition votes_size (results : list result) : Z :=
  sumZ (map (fun r => Z.abs (votes_of r)) results).

(** Lines 258-260: for each office of [Object.keys(resultsByOffice)],
    its results and their total.  The name is one of the object's own,
    so the lookup finds its array. *)
Definition office_totals (groups : object (list result))
  : list (string * option Z) :=
  map (fun office =>
         (office,
          totalVotes (match get office groups with
                      | Some officeResults => officeResults
                      | None => []
                      end)))
      (Object_keys groups).

(** The votes of a CSV record, when its text is an integer literal. *)
Definition csv_votes (row : csv_row) : Z :=
  match get "votes" row with
  | Some s => match integer_literal s with Some z => z | None => 0%Z end
  | None => 0%Z
  end.

Definition csv_votes_size (rows : list csv_row) : Z :=
  sumZ (map (fun row => Z.abs (csv_votes row)) rows).
(** * Properties *)

(** ** The order of stored text *)

Lemma string_compare_refl (s : string) : String.compare s s = Eq.
Proof. apply String_as_OT.cmp_eq. reflexivity. Qed.

Lemma string_compare_trans_lt (a b c : string) :
  String.compare a b = Lt -> String.compare b c = Lt -> String.compare a c = Lt.
Proof.
  intros Hab Hbc.
  apply String_as_OT.cmp_lt in Hab. apply String_as_OT.cmp_lt in Hbc.
  apply String_as_OT.cmp_lt. eapply String_as_OT.lt_trans; eassumption.
Qed.

Lemma text_compare_eq (a b : option string) : text_compare a b = Eq <-> a = b.
Proof.
  destruct a as [x|], b as [y|]; simpl; split; intros H;
    try discriminate; try reflexivity.
  - apply String_as_OT.cmp_eq in H. now subst.
  - inversion H. apply string_compare_refl.
Qed.

Lemma text_compare_antisym (a b : option string) :
  text_compare a b = CompOpp (text_compare b a).
Proof.
  destruct a, b; simpl; try reflexivity. apply String_as_OT.cmp_antisym.
Qed.

Lemma text_compare_trans_lt (a b c : option string) :
  text_compare a b = Lt -> text_compare b c = Lt -> text_compare a c = Lt.
Proof.
  destruct a, b, c; simpl; intros; try discriminate; try reflexivity.
  eapply string_compare_trans_lt; eassumption.
Qed.

Lemma text_leb_total (a b : option string) :
  text_leb a b = true \/ text_leb b a = true.
Proof.
  unfold text_leb. rewrite (text_compare_antisym b a).
  destruct (text_compare a b); simpl; auto.
Qed.

Lemma text_leb_trans (a b c : option string) :
  text_leb a b = true -> text_leb b c = true -> text_leb a c = true.
Proof.
  unfold text_leb. intros Hab Hbc.
  destruct (text_compare a b) eqn:E1; try discriminate.
  - apply text_compare_eq in E1. now subst.
  - destruct (text_compare b c) eqn:E2; try discriminate.
    + apply text_compare_eq in E2. subst. now rewrite E1.
    + now rewrite (text_compare_trans_lt _ _ _ E1 E2).
Qed.

Lemma text_leb_antisym (a b : option string) :
  text_leb a b = true -> text_leb b a = true -> a = b.
Proof.
  unfold text_leb. rewrite (text_compare_antisym b a).
  destruct (text_compare a b) eqn:E; simpl; try discriminate.
  intros _ _. now apply text_compare_eq.
Qed.

(** ** ORDER BY *)

Section OrderByFacts.
Context {A : Type} (leb : A -> A -> bool).
Hypothesis leb_total : forall a b, leb a b = true \/ leb b a = true.
Hypothesis leb_trans :
  forall a b c, leb a b = true -> leb b c = true -> leb a c = true.

Let le (a b : A) : Prop := leb a b = true.

Lemma insert_sorted_perm (x : A) (l : list A) :
  Permutation (insert_sorted leb x l) (x :: l).
Proof.
  induction l as [|y l IH]; simpl.
  - reflexivity.
  - destruct (leb x y).
    + reflexivity.
    + rewrite IH. apply perm_swap.
Qed.

Lemma order_by_perm (l : list A) : Permutation (order_by leb l) l.
Proof.
  induction l as [|x l IH]; simpl.
  - reflexivity.
  - rewrite insert_sorted_perm. now constructor.
Qed.

Lemma insert_sorted_sorted (x : A) (l : list A) :
  StronglySorted le l -> StronglySorted le (insert_sorted leb x l).
Proof.
  induction 1 as [|y l Hs IH Hy]; simpl.
  - repeat constructor.
  - destruct (leb x y) eqn:E.
    + constructor.
      * now constructor.
      * constructor; [exact E|].
        eapply Forall_impl; [|exact Hy].
        intros z Hz. eapply leb_trans; eassumption.
    + constructor; [exact IH|].
      assert (Hyx : le y x) by (destruct (leb_total x y); congruence).
      eapply Permutation_Forall.
      * symmetry. apply insert_sorted_perm.
      * now constructor.
Qed.

Lemma order_by_sorted (l : list A) : StronglySorted le (order_by leb l).
Proof.
  induction l as [|x l IH]; simpl.
  - constructor.
  - now apply insert_sorted_sorted.
Qed.

Lemma order_by_In (l : list A) (x : A) : In x (order_by leb l) <-> In x l.
Proof.
  split; apply Permutation_in; [|symmetry]; apply order_by_perm.
Qed.

Lemma order_by_NoDup (l : list A) : NoDup l -> NoDup (order_by leb l).
Proof.
  intros H. eapply Permutation_NoDup; [|exact H].
  symmetry. apply order_by_perm.
Qed.

Lemma order_by_length (l : list A) : List.length (order_by leb l) = List.length l.
Proof. apply Permutation_length, order_by_perm. Qed.
End OrderByFacts.

(** ** SELECT DISTINCT column ... ORDER BY column *)


Lemma all_text (l : list (option string)) :
  Forall (fun v => is_not_null v = true) l ->
  exists names, l = map Some names.
Proof.
  induction 1 as [|v l Hv _ [names ->]].
  - now exists [].
  - destruct v as [s|]; [|discriminate]. now exists (s :: names).
Qed.

Lemma Some_injective_NoDup (names : list string) :
  NoDup (map (@Some string) names) -> NoDup names.
Proof.
  induction names as [|a names IH]; simpl; intros H.
  - constructor.
  - inversion H as [|? ? Hnotin Hrest]; subst. constructor.
    + intros Hin. apply Hnotin. now apply in_map.
    + now apply IH.
Qed.

Lemma sorted_distinct_ascending (names : list string) :
  StronglySorted (fun a b => text_leb a b = true) (map Some names) ->
  NoDup names ->
  ascending names.
Proof.
  unfold ascending.
  induction names as [|a names IH]; simpl; intros Hs Hd.
  - constructor.
  - inversion Hs as [|? ? Hrest Hall]; subst.
    inversion Hd as [|? ? Hnotin Hd']; subst.
    constructor; [now apply IH|].
    apply Forall_forall. intros b Hb.
    rewrite Forall_forall in Hall.
    specialize (Hall (Some b) (in_map _ _ _ Hb)).
    unfold text_leb in Hall. simpl in Hall. unfold String.ltb.
    destruct (String.compare a b) eqn:E; try reflexivity; try discriminate.
    apply String_as_OT.cmp_eq in E. subst. contradiction.
Qed.

Lemma ascending_NoDup (names : list string) : ascending names -> NoDup names.
Proof.
  unfold ascending. induction 1 as [|a names _ IH Hall].
  - constructor.
  - constructor; [|exact IH].
    intros Hin. rewrite Forall_forall in Hall. specialize (Hall a Hin).
    unfold String.ltb in Hall. now rewrite string_compare_refl in Hall.
Qed.

Section SelectColumn.
Context {row : Type} (column : row -> option string) (condition : row -> bool).

Lemma select_column_spec (t : list row) :
  exists names : list string,
    select_column column condition t = map Some names
    /\ (forall j, In j names <->
                  exists r, In r t /\ condition r = true /\ column r = Some j)
    /\ ascending names.
Proof.
  unfold select_column.
  set (picked := filter _ t).
  destruct (all_text (order_by text_leb (distinct (map column picked))))
    as [names Hnames].
  { apply Forall_forall. intros v Hv.
    apply (proj1 (order_by_In text_leb _ _)) in Hv. apply nodup_In in Hv.
    apply in_map_iff in Hv. destruct Hv as [r [<- Hr]].
    apply filter_In in Hr. destruct Hr as [_ Hr].
    now apply andb_true_iff in Hr. }
  exists names. split; [exact Hnames|]. split.
  - intros j. split.
    + intros Hj. apply (in_map Some) in Hj. rewrite <- Hnames in Hj.
      apply (proj1 (order_by_In text_leb _ _)) in Hj. apply nodup_In in Hj.
      apply in_map_iff in Hj. destruct Hj as [r [Hcol Hr]].
      apply filter_In in Hr. destruct Hr as [Hin Hr].
      apply andb_true_iff in Hr. exists r. tauto.
    + intros [r [Hin [Hcond Hcol]]].
      assert (H : In (Some j) (map Some names)).
      { rewrite <- Hnames. apply (order_by_In text_leb). apply nodup_In.
        rewrite <- Hcol. apply in_map. apply filter_In. split; [exact Hin|].
        rewrite Hcond, Hcol. reflexivity. }
      apply in_map_iff in H. destruct H as [j' [Hj' Hin']]. now inversion Hj'; subst.
  - apply sorted_distinct_ascending.
    + rewrite <- Hnames. apply order_by_sorted.
      * apply text_leb_total.
      * apply text_leb_trans.
    + apply Some_injective_NoDup. rewrite <- Hnames.
      apply order_by_NoDup. apply NoDup_nodup.
Qed.
End SelectColumn.

Lemma map_text_json_Some (names : list string) :
  map text_json (map Some names) = map (fun j => JStr j) names.
Proof. now rewrite map_map. Qed.

Lemma sql_eq_Some (v : option string) (x : string) :
  sql_eq v (Some x) = true <-> v = Some x.
Proof.
  destruct v as [s|]; simpl; split; intros H; try discriminate.
  - apply String.eqb_eq in H. now subst.
  - inversion H. apply String.eqb_refl.
Qed.

(** The jurisdictions handler on any store, for a county that passes
    the guard of line 136. *)
Lemma api_jurisdictions_spec (db : database) (X : string) :
  X <> "" -> X <> "Select County" ->
  exists names : list string,
    api_jurisdictions db (Some X) = json_200 (JArr (map (fun j => JStr j) names))
    /\ (forall j, In j names <->
                  exists r, In r (precincts_table db)
                            /\ precincts.county r = Some X
                            /\ precincts.jurisdiction r = Some j)
    /\ ascending names.
Proof.
  intros Hne Hsent.
  destruct (select_column_spec precincts.jurisdiction
              (fun r => sql_eq (precincts.county r) (Some X)) (precincts_table db))
    as [names [Hsel [Hin Hasc]]].
  exists names. split; [|split; [|exact Hasc]].
  - unfold api_jurisdictions, missing, is_string.
    apply String.eqb_neq in Hne. apply String.eqb_neq in Hsent.
    rewrite Hne, Hsent. simpl. unfold select_jurisdictions.
    rewrite Hsel. now rewrite map_text_json_Some.
  - intros j. rewrite Hin. split; intros [r [H1 [H2 H3]]]; exists r;
      (split; [exact H1|split; [|exact H3]]); now apply sql_eq_Some.
Qed.

(** ** Decimal numerals *)


Lemma nzhead_shape (u : Decimal.uint) :
  Decimal.nzhead u = Decimal.Nil \/ nonzero_head (Decimal.nzhead u).
Proof. induction u; simpl; auto. Qed.

Lemma to_uint_shape (n : N) :
  N.to_uint n = Decimal.D0 Decimal.Nil \/ nonzero_head (N.to_uint n).
Proof.
  rewrite <- (DecimalN.Unsigned.of_to n) at 1 2.
  rewrite DecimalN.Unsigned.to_of. unfold Decimal.unorm.
  destruct (nzhead_shape (N.to_uint n)) as [-> | H]; [now left|].
  destruct (Decimal.nzhead (N.to_uint n)); simpl in *; auto; contradiction.
Qed.

Lemma to_uint_zero (n : N) : N.to_uint n = Decimal.D0 Decimal.Nil -> n = 0%N.
Proof.
  intros H. rewrite <- (DecimalN.Unsigned.of_to n), H. reflexivity.
Qed.

Lemma uint_chars_nonempty (n : N) : uint_chars (N.to_uint n) <> [].
Proof.
  destruct (to_uint_shape n) as [-> | H]; [discriminate|].
  destruct (N.to_uint n); simpl in *; try contradiction; discriminate.
Qed.

Lemma decimal_chars_nonempty (z : Z) : decimal_chars z <> [].
Proof.
  unfold decimal_chars. destruct (z <? 0)%Z; [discriminate|].
  apply uint_chars_nonempty.
Qed.

Lemma string_of_list_ascii_nonempty (l : list ascii) :
  l <> [] -> string_of_list_ascii l <> "".
Proof. destruct l; [congruence|discriminate]. Qed.

Lemma decimal_nonempty (z : Z) : decimal z <> "".
Proof. apply string_of_list_ascii_nonempty, decimal_chars_nonempty. Qed.


Lemma read_digits_stop (rest : list ascii) :
  no_digit_ahead rest -> read_digits rest = (Decimal.Nil, rest).
Proof.
  destruct rest as [|c rest]; simpl; intros H; [reflexivity|now rewrite H].
Qed.

Lemma read_digits_uint_chars (u : Decimal.uint) (rest : list ascii) :
  no_digit_ahead rest ->
  read_digits (uint_chars u ++ rest) = (u, rest).
Proof.
  intros Hrest.
  induction u; simpl; try rewrite IHu; try reflexivity.
  now apply read_digits_stop.
Qed.

(** ** The precincts loader *)

Lemma truthy_stored (v : jsval) :
  truthy v = true ->
  exists s, text_affinity (bind_parameter v) = Some s /\ s <> "".
Proof.
  destruct v as [[|b|n|s]|]; simpl; intros H; try discriminate.
  - subst. exists "1". split; [reflexivity|discriminate].
  - exists (decimal n). split; [reflexivity|apply decimal_nonempty].
  - exists s. split; [reflexivity|].
    intros ->. discriminate.
Qed.

Lemma js_or_truthy (a b : jsval) : truthy b = true -> truthy (js_or a b) = true.
Proof. unfold js_or. destruct (truthy a) eqn:E; auto. Qed.

Lemma truthy_precinct_name (index : nat) :
  truthy (Some (PStr ("precinct_" ++ decimal (Z.of_nat index)))) = true.
Proof. reflexivity. Qed.

Lemma map_feature_pctkey_truthy index props geom :
  truthy (arg_pctkey (map_feature index props geom)) = true.
Proof. apply js_or_truthy, truthy_precinct_name. Qed.

Lemma map_feature_county_truthy index props geom :
  truthy (arg_county (map_feature index props geom)) = true.
Proof. now apply js_or_truthy. Qed.

Lemma stmt_run_incl (a : precinct_args) (t : list precincts.row) :
  incl t (fst (stmt_run a t)).
Proof.
  unfold stmt_run. destruct (existsb _ t); simpl.
  - apply incl_refl.
  - apply incl_appl, incl_refl.
Qed.

Lemma stmt_run_rows (a : precinct_args) (t : list precincts.row) (r : precincts.row) :
  In r (fst (stmt_run a t)) -> In r t \/ r = precinct_row a.
Proof.
  unfold stmt_run. destruct (existsb _ t); simpl; auto.
  intros H. apply in_app_or in H. destruct H as [H | [H | []]]; auto.
Qed.

(** A key already stored is refused; a fresh one is appended. *)
Lemma stmt_run_taken (a : precinct_args) (t : list precincts.row) (old : precincts.row) :
  In old t ->
  precincts.pctkey old = precincts.pctkey (precinct_row a) ->
  precincts.pctkey old <> None ->
  stmt_run a t = (t, Some SQLITE_CONSTRAINT).
Proof.
  intros Hin Hkey Hnn. unfold stmt_run.
  replace (existsb _ t) with true; [reflexivity|].
  symmetry. apply existsb_exists. exists old. split; [exact Hin|].
  rewrite <- Hkey. destruct (precincts.pctkey old) as [k|]; [|congruence].
  simpl. apply String.eqb_refl.
Qed.

Lemma stmt_run_fresh (a : precinct_args) (t : list precincts.row) :
  (forall old, In old t ->
               precincts.pctkey old <> precincts.pctkey (precinct_row a)) ->
  stmt_run a t = (t ++ [precinct_row a], None).
Proof.
  intros Hfresh. unfold stmt_run.
  destruct (existsb _ t) eqn:E; [|reflexivity].
  apply existsb_exists in E. destruct E as [old [Hin Heq]].
  exfalso. apply (Hfresh old Hin).
  destruct (precincts.pctkey old) as [k|]; [|discriminate].
  destruct (precincts.pctkey (precinct_row a)) as [k'|]; [|discriminate].
  simpl in Heq. apply String.eqb_eq in Heq. now subst.
Qed.


Lemma stmt_run_primary_key (a : precinct_args) (t : list precincts.row) :
  truthy (arg_pctkey a) = true ->
  primary_key t -> primary_key (fst (stmt_run a t)).
Proof.
  intros Htruthy [Hnd Hnn]. unfold stmt_run.
  destruct (existsb _ t) eqn:E; simpl; [now split|].
  destruct (truthy_stored _ Htruthy) as [k [Hk _]].
  split.
  - rewrite map_app. simpl.
    apply NoDup_app; [exact Hnd|repeat constructor; auto|].
    intros key Hkey [<- | []].
    apply in_map_iff in Hkey. destruct Hkey as [old [Hold Hin]].
    assert (Hex : existsb
                    (fun old => sql_eq (precincts.pctkey old)
                                       (precincts.pctkey (precinct_row a))) t = true).
    { apply existsb_exists. exists old. split; [exact Hin|].
      rewrite Hold. simpl. rewrite Hk. simpl. apply String.eqb_refl. }
    congruence.
  - apply Forall_app. split; [exact Hnn|].
    constructor; [|constructor]. simpl. rewrite Hk. discriminate.
Qed.

Lemma forEach_primary_key (features : list feature) :
  forall index t, primary_key t -> primary_key (forEach index features t).
Proof.
  induction features as [|feat rest IH]; simpl; intros index t Ht; [exact Ht|].
  destruct (properties feat) as [props|]; [|exact Ht].
  apply IH. apply stmt_run_primary_key; [|exact Ht].
  apply map_feature_pctkey_truthy.
Qed.

Lemma forEach_incl (features : list feature) :
  forall index t, incl t (forEach index features t).
Proof.
  induction features as [|feat rest IH]; simpl; intros index t.
  - apply incl_refl.
  - destruct (properties feat) as [props|]; [|apply incl_refl].
    eapply incl_tran; [apply stmt_run_incl|apply IH].
Qed.

(** Where a stored row comes from. *)
Lemma forEach_rows (features : list feature) :
  forall index t r,
    In r (forEach index features t) ->
    In r t
    \/ exists k feat props,
        nth_error features k = Some feat
        /\ properties feat = Some props
        /\ r = precinct_row (map_feature (index + k) props (geometry feat)).
Proof.
  induction features as [|feat rest IH]; simpl; intros index t r Hr; [now left|].
  destruct (properties feat) as [props|] eqn:Hp; [|now left].
  apply IH in Hr. destruct Hr as [Hr | [k [f [p [Hk [Hf Hrow]]]]]].
  - apply stmt_run_rows in Hr. destruct Hr as [Hr | ->]; [now left|].
    right. exists 0%nat, feat, props. rewrite Nat.add_0_r. auto.
  - right. exists (S k), f, p. simpl.
    replace (index + S k)%nat with (S index + k)%nat by lia. auto.
Qed.

Lemma import_geojson_rows (features : list feature) (r : precincts.row) :
  In r (import_geojson features) ->
  exists k feat props,
    nth_error features k = Some feat
    /\ properties feat = Some props
    /\ r = precinct_row (map_feature k props (geometry feat)).
Proof.
  intros H. apply forEach_rows in H. destruct H as [[] | H]. exact H.
Qed.


Lemma forEach_inserts (features : list feature) :
  forall index t k feat props,
    reached features k ->
    nth_error features k = Some feat ->
    properties feat = Some props ->
    let a := map_feature (index + k) props (geometry feat) in
    exists t',
      incl t t'
      /\ (forall r, In r t' ->
            In r t
            \/ exists j f p,
                (j < k)%nat /\ nth_error features j = Some f
                /\ properties f = Some p
                /\ r = precinct_row (map_feature (index + j) p (geometry f)))
      /\ incl (fst (stmt_run a t')) (forEach index features t).
Proof.
  induction features as [|f0 rest IH]; intros index t k feat props Hreach Hk Hp.
  - destruct k; discriminate.
  - destruct k as [|k]; simpl in Hk.
    + inversion Hk; subst f0. simpl. rewrite Hp. rewrite Nat.add_0_r.
      exists t. split; [apply incl_refl|]. split; [now left|].
      apply forEach_incl.
    + simpl. destruct (properties f0) as [p0|] eqn:Hp0.
      2:{ exfalso. apply (Hreach 0%nat f0); [lia|reflexivity|exact Hp0]. }
      destruct (IH (S index) (fst (stmt_run (map_feature index p0 (geometry f0)) t))
                   k feat props) as [t' [Hincl [Hfrom Hres]]].
      * intros j f Hj Hnth. apply (Hreach (S j) f); [lia|exact Hnth].
      * exact Hk.
      * exact Hp.
      * exists t'. split; [|split].
        -- eapply incl_tran; [apply stmt_run_incl|exact Hincl].
        -- intros r Hr. apply Hfrom in Hr.
           destruct Hr as [Hr | [j [f [p [Hj [Hnth [Hpf Hrow]]]]]]].
           ++ apply stmt_run_rows in Hr. destruct Hr as [Hr | ->]; [now left|].
              right. exists 0%nat, f0, p0. rewrite Nat.add_0_r.
              repeat split; auto. lia.
           ++ right. exists (S j), f, p.
              replace (index + S j)%nat with (S index + j)%nat by lia.
              repeat split; auto. lia.
        -- replace (index + S k)%nat with (S index + k)%nat by lia. exact Hres.
Qed.

(** The feature the loop reaches at position [k] leaves a row with its
    key in the table, and its own row when its key is new. *)
Lemma key_is_stored (features : list feature) (k : nat)
  (feat : feature) (props : object jsprim) :
  reached features k ->
  nth_error features k = Some feat ->
  properties feat = Some props ->
  let a := map_feature k props (geometry feat) in
  (exists r, In r (import_geojson features)
             /\ precincts.pctkey r = precincts.pctkey (precinct_row a))
  /\ ((forall j f p,
         (j < k)%nat -> nth_error features j = Some f -> properties f = Some p ->
         precincts.pctkey (precinct_row (map_feature j p (geometry f)))
         <> precincts.pctkey (precinct_row a)) ->
      In (precinct_row a) (import_geojson features)).
Proof.
  intros Hreach Hk Hp a.
  destruct (forEach_inserts features 0 [] k feat props Hreach Hk Hp)
    as [t' [_ [Hfrom Hres]]].
  simpl in Hres. fold a in Hres.
  split.
  - unfold stmt_run in Hres.
    destruct (existsb _ t') eqn:E; simpl in Hres.
    + apply existsb_exists in E. destruct E as [old [Hin Heq]].
      exists old. split; [now apply Hres|].
      destruct (precincts.pctkey old) as [x|]; [|discriminate].
      destruct (precincts.pctkey (precinct_row a)) as [y|]; [|discriminate].
      simpl in Heq. apply String.eqb_eq in Heq. now subst.
    + exists (precinct_row a). split; [|reflexivity].
      apply Hres, in_or_app. right. now left.
  - intros Hfresh. apply Hres. rewrite stmt_run_fresh.
    + simpl. apply in_or_app. right. now left.
    + intros old Hold. apply Hfrom in Hold.
      destruct Hold as [[] | [j [f [p [Hj [Hnth [Hpf ->]]]]]]].
      now apply (Hfresh j f p).
Qed.

(** The scenario of the specification: a feature P1 of Dallas and a
    feature of Tarrant without key give the counties Dallas, Tarrant,
    and the second key is precinct_1. *)
Example two_counties :
  let features :=
    [ {| properties := Some [("pctkey", PStr "P1"); ("county", PStr "Dallas");
                             ("city", PStr "Dallas")];
         geometry := point 0 0 |};
      {| properties := Some [("county", PStr "Tarrant")];
         geometry := point 1 1 |} ] in
  api_filters (startup [] features) = json_200 (JArr [JStr "Dallas"; JStr "Tarrant"])
  /\ map precincts.pctkey (precincts_table (startup [] features))
     = [Some "P1"; Some "precinct_1"].
Proof. split; reflexivity. Qed.

(** ** Key uniqueness (C1) *)

(** C1, as stated, fails: of two features with the key P1 only the first
    is stored; the INSERT of the second is refused with
    SQLITE_CONSTRAINT, so the table does not hold two rows with one
    key. *)
Lemma duplicate_key_is_refused :
  map precincts.pctkey (import_geojson twice_P1) = [Some "P1"]
  /\ map precincts.county (import_geojson twice_P1) = [Some "Dallas"]
  /\ snd (stmt_run (map_feature 1 [("pctkey", PStr "P1"); ("county", PStr "Tarrant")]
                                (point 3 4))
                   (import_geojson (firstn 1 twice_P1)))
     = Some SQLITE_CONSTRAINT.
Proof. repeat split. Qed.

(** C1, amended: the store enforces the key.  After loading any feature
    list no two rows of the precincts table have the same key and no
    key is NULL; an INSERT whose key is already stored leaves the table
    as it was and reports SQLITE_CONSTRAINT. *)
Theorem precinct_key_is_enforced (features : list feature) :
  NoDup (map precincts.pctkey (import_geojson features))
  /\ Forall (fun r => precincts.pctkey r <> None) (import_geojson features)
  /\ (forall a old,
        In old (import_geojson features) ->
        precincts.pctkey old = precincts.pctkey (precinct_row a) ->
        stmt_run a (import_geojson features)
        = (import_geojson features, Some SQLITE_CONSTRAINT)).
Proof.
  assert (H : primary_key (import_geojson features)).
  { apply forEach_primary_key. split; constructor. }
  destruct H as [Hnd Hnn]. split; [exact Hnd|]. split; [exact Hnn|].
  intros a old Hin Hkey. apply (stmt_run_taken a _ old Hin Hkey).
  rewrite Forall_forall in Hnn. now apply Hnn.
Qed.

Lemma precinct_key_is_enforced_witness :
  NoDup (map precincts.pctkey (import_geojson twice_P1))
  /\ stmt_run (map_feature 5 [("pctkey", PStr "P1")] JNull) (import_geojson twice_P1)
     = (import_geojson twice_P1, Some SQLITE_CONSTRAINT).
Proof.
  destruct (precinct_key_is_enforced twice_P1) as [Hnd [_ Htaken]].
  split; [exact Hnd|].
  apply (Htaken _ {| precincts.pctkey := Some "P1";
                     precincts.county := Some "Dallas";
                     precincts.jurisdiction := Some "Unknown";
                     precincts.district := Some "Unknown";
                     precincts.geometry :=
                       Some (JSON.stringify (point 1 2)) |}).
  - vm_compute. left. reflexivity.
  - reflexivity.
Defined.

(** ** The mapping of a feature (C2) *)

Lemma js_or_default (v : jsval) (d : string) :
  js_or v (Some (PStr d)) = or_default v d.
Proof. reflexivity. Qed.

Lemma js_or_first_truthy (a b c : jsval) :
  truthy (js_or (js_or a b) c) = truthy (first_truthy [a; b; c])
  /\ (truthy (first_truthy [a; b; c]) = true ->
      js_or (js_or a b) c = first_truthy [a; b; c]).
Proof.
  unfold js_or. simpl.
  destruct (truthy a) eqn:Ea; simpl; rewrite ?Ea; [now split|].
  destruct (truthy b) eqn:Eb; simpl; rewrite ?Eb; [now split|].
  destruct (truthy c) eqn:Ec; split; auto; intros; discriminate.
Qed.

Lemma district_is_first_truthy (a b c : jsval) (d : string) :
  js_or (js_or (js_or a b) c) (Some (PStr d))
  = or_default (first_truthy [a; b; c]) d.
Proof.
  destruct (js_or_first_truthy a b c) as [Ht Heq].
  unfold or_default. unfold js_or at 1. rewrite Ht.
  destruct (truthy (first_truthy [a; b; c])); auto.
Qed.

(** C2, as stated, fails: a [pctkey] that is present but empty is
    replaced by the synthesized key, and a district property that is
    present but zero is passed over for the next one. *)
Lemma present_but_falsy_is_replaced :
  get "pctkey" falsy_props = Some (PStr "")
  /\ arg_pctkey (map_feature 0 falsy_props JNull) = Some (PStr "precinct_0")
  /\ arg_pctkey (map_feature 0 falsy_props JNull) <> get "pctkey" falsy_props
  /\ get "us_congress" falsy_props = Some (PNum 0)
  /\ arg_district (map_feature 0 falsy_props JNull) = "7"
  /\ arg_district (map_feature 0 falsy_props JNull)
     <> ToString (get "us_congress" falsy_props).
Proof. repeat split; discriminate. Qed.

(** C2, amended: when the numbers among the property values of the
    input are integers of 32 bits (those the driver binds as INTEGER
    and the store keeps as their decimal text), for the feature at
    zero-based position [k], once the loop reaches it and its
    [properties] is an object, the INSERT is issued with: key,
    [properties.pctkey] if truthy, else ["precinct_<k>"]; county,
    [properties.county] if truthy, else ["Unknown"]; jurisdiction,
    [properties.city] if truthy, else ["Unknown"]; district, [String]
    of the first truthy value among [us_congress], [state_senate],
    [state_house] in that order, else ["Unknown"].  A row with that key
    is then in the table, and it is the row of this feature when no
    earlier feature has the same key. *)
Theorem loader_maps_feature (features : list feature) (k : nat)
  (feat : feature) (props : object jsprim) :
  (forall f p, In f features -> properties f = Some p ->
               small_numbers p = true) ->
  reached features k ->
  nth_error features k = Some feat ->
  properties feat = Some props ->
  let a := map_feature k props (geometry feat) in
  arg_pctkey a
  = or_default (get "pctkey" props) ("precinct_" ++ decimal (Z.of_nat k))
  /\ arg_county a = or_default (get "county" props) "Unknown"
  /\ arg_jurisdiction a = or_default (get "city" props) "Unknown"
  /\ arg_district a
     = ToString (or_default
                   (first_truthy [get "us_congress" props;
                                  get "state_senate" props;
                                  get "state_house" props])
                   "Unknown")
  /\ (exists r, In r (import_geojson features)
                /\ precincts.pctkey r = precincts.pctkey (precinct_row a))
  /\ ((forall j f p,
         (j < k)%nat -> nth_error features j = Some f -> properties f = Some p ->
         precincts.pctkey (precinct_row (map_feature j p (geometry f)))
         <> precincts.pctkey (precinct_row a)) ->
      In (precinct_row a) (import_geojson features)).
Proof.
  intros _ Hreach Hk Hp a.
  split; [reflexivity|]. split; [reflexivity|]. split; [reflexivity|].
  split.
  { unfold a, map_feature. simpl. now rewrite district_is_first_truthy. }
  exact (key_is_stored features k feat props Hreach Hk Hp).
Qed.

Lemma loader_maps_feature_witness :
  arg_district (map_feature 1 [("pctkey", PStr "B"); ("county", PStr "Dallas");
                               ("city", PStr "Irving"); ("us_congress", PNum 10)]
                            (point 1 1)) = "10"
  /\ In {| precincts.pctkey := Some "B";
           precincts.county := Some "Dallas";
           precincts.jurisdiction := Some "Irving";
           precincts.district := Some "10";
           precincts.geometry := Some (JSON.stringify (point 1 1)) |}
        (import_geojson districts_9_10).
Proof.
  assert (Hreach : reached districts_9_10 1).
  { intros j f Hj Hnth. destruct j as [|j]; [|lia].
    inversion Hnth; subst f. discriminate. }
  assert (Hsmall : forall f p, In f districts_9_10 -> properties f = Some p ->
                               small_numbers p = true).
  { intros f p [<- | [<- | []]] Hp; inversion Hp; reflexivity. }
  destruct (loader_maps_feature districts_9_10 1 _ _ Hsmall Hreach eq_refl eq_refl)
    as [_ [_ [_ [Hd [_ Hin]]]]].
  split; [exact Hd|].
  apply Hin. intros j f p Hj Hnth Hpf.
  destruct j as [|j]; [|lia].
  inversion Hnth; subst f. inversion Hpf; subst p. discriminate.
Defined.

(** ** Districts are text (C9) *)

Lemma api_districts_spec (db : database) (county jurisdiction : option string) :
  exists names : list string,
    api_districts db county jurisdiction
    = json_200 (JArr (map (fun d => JStr d) names))
    /\ ascending names.
Proof.
  unfold api_districts.
  destruct (missing county || missing jurisdiction
            || is_string county "Select County"
            || is_string jurisdiction "Select Jurisdiction").
  - exists []. split; [reflexivity|constructor].
  - unfold select_districts.
    destruct (select_column_spec precincts.district
                (fun r => sql_eq (precincts.county r) county
                          && sql_eq (precincts.jurisdiction r) jurisdiction)
                (precincts_table db)) as [names [Hsel [_ Hasc]]].
    exists names. rewrite Hsel, map_text_json_Some. auto.
Qed.

(** C9: every stored district is a string, [String] of the value the
    loader selected, so a number [n] that is a safe integer is stored
    as its decimal text; the districts operation answers with strings
    in ascending text order, and so the districts 9 and 10 come back as
    "10", "9". *)
Theorem districts_are_text :
  (forall features r,
     In r (import_geojson features) ->
     exists s, precincts.district r = Some s)
  /\ (forall index props geom n,
        get "us_congress" props = Some (PNum n) -> n <> 0%Z ->
        safe_integer n = true ->
        precincts.district (precinct_row (map_feature index props geom))
        = Some (decimal n))
  /\ (forall db county jurisdiction,
        exists names : list string,
          api_districts db county jurisdiction
          = json_200 (JArr (map (fun d => JStr d) names))
          /\ ascending names)
  /\ api_districts (startup [] districts_9_10) (Some "Dallas") (Some "Irving")
     = json_200 (JArr [JStr "10"; JStr "9"]).
Proof.
  split; [|split; [|split]].
  - intros features r Hr.
    apply import_geojson_rows in Hr.
    destruct Hr as [k [feat [props [_ [_ ->]]]]]. simpl. eauto.
  - intros index props geom n Hget Hn _. simpl.
    rewrite district_is_first_truthy. simpl. rewrite Hget. simpl.
    apply Z.eqb_neq in Hn. rewrite Hn. simpl.
    unfold or_default. simpl. rewrite Hn. reflexivity.
  - apply api_districts_spec.
  - reflexivity.
Qed.

Lemma districts_are_text_witness :
  precincts.district
    (precinct_row (map_feature 0 [("us_congress", PNum 32)] JNull))
  = Some "32".
Proof.
  destruct districts_are_text as [_ [H _]].
  apply (H 0%nat [("us_congress", PNum 32)] JNull 32%Z).
  - reflexivity.
  - discriminate.
  - reflexivity.
Defined.

(** ** Jurisdictions of a county (C5) *)

Lemma import_geojson_county (features : list feature) (r : precincts.row) :
  In r (import_geojson features) ->
  exists c, precincts.county r = Some c /\ c <> "".
Proof.
  intros Hr. apply import_geojson_rows in Hr.
  destruct Hr as [k [feat [props [_ [_ ->]]]]]. simpl.
  apply truthy_stored. now apply js_or_truthy.
Qed.

(** C5, as stated, fails for a county named like the placeholder: the
    store has a Dallas row under the county "Select County", and the
    operation answers with the empty list. *)
Lemma placeholder_county_has_no_jurisdictions :
  map (fun r => (precincts.county r, precincts.jurisdiction r))
      (precincts_table (startup [] placeholder_county))
  = [(Some "Select County", Some "Dallas")]
  /\ api_jurisdictions (startup [] placeholder_county) (Some "Select County")
     = json_200 (JArr []).
Proof. split; reflexivity. Qed.

(** C5, amended: for every county value [X] present in the store, other
    than the placeholder "Select County", the jurisdictions operation
    with county [X] returns exactly the jurisdiction values of the rows
    whose county is [X], in ascending order and without duplicates. *)
Theorem jurisdictions_of_county (csv : list csv_row) (features : list feature)
  (X : string) :
  In (Some X) (map precincts.county (precincts_table (startup csv features))) ->
  X <> "Select County" ->
  exists names : list string,
    api_jurisdictions (startup csv features) (Some X)
    = json_200 (JArr (map (fun j => JStr j) names))
    /\ (forall j, In j names <->
                  exists r, In r (precincts_table (startup csv features))
                            /\ precincts.county r = Some X
                            /\ precincts.jurisdiction r = Some j)
    /\ ascending names
    /\ NoDup names.
Proof.
  intros Hin Hsent.
  assert (Hne : X <> "").
  { apply in_map_iff in Hin. destruct Hin as [r [Hc Hr]].
    apply import_geojson_county in Hr. destruct Hr as [c [Hc' Hne]].
    congruence. }
  destruct (api_jurisdictions_spec (startup csv features) X Hne Hsent)
    as [names [Hresp [Hmem Hasc]]].
  exists names. repeat split; auto; try apply Hmem.
  now apply ascending_NoDup.
Qed.

Lemma jurisdictions_of_county_witness :
  exists names : list string,
    api_jurisdictions (startup [] districts_9_10) (Some "Dallas")
    = json_200 (JArr (map (fun j => JStr j) names))
    /\ (forall j, In j names <->
                  exists r, In r (precincts_table (startup [] districts_9_10))
                            /\ precincts.county r = Some "Dallas"
                            /\ precincts.jurisdiction r = Some j)
    /\ ascending names
    /\ NoDup names.
Proof.
  apply (jurisdictions_of_county [] districts_9_10 "Dallas").
  - simpl. left. reflexivity.
  - discriminate.
Defined.

(** ** Missing or unknown parameters (C6) *)

Lemma filter_none {A : Type} (f : A -> bool) (l : list A) :
  (forall x, In x l -> f x = false) -> filter f l = [].
Proof.
  induction l as [|x l IH]; simpl; intros H; [reflexivity|].
  rewrite (H x (or_introl eq_refl)). apply IH. auto.
Qed.

Lemma select_column_none {row : Type} (column : row -> option string)
  (condition : row -> bool) (t : list row) :
  (forall r, In r t -> condition r = false) ->
  select_column column condition t = [].
Proof.
  intros H. unfold select_column. rewrite filter_none; [reflexivity|].
  intros r Hr. now rewrite (H r Hr).
Qed.

Lemma sql_eq_other (v : option string) (x : string) :
  v <> Some x -> sql_eq v (Some x) = false.
Proof.
  intros H. destruct (sql_eq v (Some x)) eqn:E; [|reflexivity].
  apply sql_eq_Some in E. contradiction.
Qed.

(** C6: each operation with a required parameter answers with an empty
    array, status 200, when the parameter is absent, empty, the
    placeholder, or a value no row has. *)
Theorem missing_parameter_gives_empty (db : database) :
  (forall county,
     county = None \/ county = Some "" \/ county = Some "Select County"
     \/ (exists X, county = Some X
                   /\ forall r, In r (precincts_table db) ->
                                precincts.county r <> Some X) ->
     api_jurisdictions db county = json_200 (JArr []))
  /\ (forall county jurisdiction,
        county = None \/ county = Some "" \/ county = Some "Select County"
        \/ jurisdiction = None \/ jurisdiction = Some ""
        \/ jurisdiction = Some "Select Jurisdiction"
        \/ (exists X Y, county = Some X /\ jurisdiction = Some Y
                        /\ forall r, In r (precincts_table db) ->
                                     ~ (precincts.county r = Some X
                                        /\ precincts.jurisdiction r = Some Y)) ->
        api_districts db county jurisdiction = json_200 (JArr []))
  /\ (forall pctkey,
        pctkey = None
        \/ (exists K, pctkey = Some K
                      /\ forall r, In r (results_table db) ->
                                   results.pctkey r <> Some K) ->
        api_results db pctkey = json_200 (JArr [])).
Proof.
  split; [|split].
  - intros county [-> | [-> | [-> | [X [-> Hno]]]]]; try reflexivity.
    unfold api_jurisdictions.
    destruct (missing (Some X) || is_string (Some X) "Select County");
      [reflexivity|].
    unfold select_jurisdictions. rewrite select_column_none; [reflexivity|].
    intros r Hr. apply sql_eq_other. now apply Hno.
  - intros county jurisdiction H. unfold api_districts.
    destruct (missing county || missing jurisdiction
              || is_string county "Select County"
              || is_string jurisdiction "Select Jurisdiction") eqn:G;
      [reflexivity|].
    destruct H as [-> | [-> | [-> | [-> | [-> | [-> | H]]]]]];
      try (exfalso; cbn in G; rewrite ?orb_true_r in G; cbn in G;
           rewrite ?orb_true_r in G; discriminate G).
    destruct H as [X [Y [-> [-> Hno]]]].
    unfold select_districts. rewrite select_column_none; [reflexivity|].
    intros r Hr.
    destruct (sql_eq (precincts.county r) (Some X)) eqn:Ec; [|reflexivity].
    destruct (sql_eq (precincts.jurisdiction r) (Some Y)) eqn:Ej; [|reflexivity].
    apply sql_eq_Some in Ec. apply sql_eq_Some in Ej.
    exfalso. apply (Hno r Hr). auto.
  - intros pctkey [-> | [K [-> Hno]]]; unfold api_results, select_results.
    + rewrite filter_none; [reflexivity|].
      intros r _. destruct (results.pctkey r); reflexivity.
    + rewrite filter_none; [reflexivity|].
      intros r Hr. apply sql_eq_other. now apply Hno.
Qed.

Lemma missing_parameter_gives_empty_witness :
  api_jurisdictions (startup csv_party_only districts_9_10) None
  = json_200 (JArr [])
  /\ api_districts (startup csv_party_only districts_9_10)
                   (Some "Dallas") (Some "Plano")
     = json_200 (JArr [])
  /\ api_results (startup csv_party_only districts_9_10) None
     = json_200 (JArr []).
Proof.
  destruct (missing_parameter_gives_empty (startup csv_party_only districts_9_10))
    as [Hj [Hd Hr]].
  split; [|split].
  - apply Hj. left. reflexivity.
  - apply Hd. do 6 right. exists "Dallas", "Plano".
    split; [reflexivity|]. split; [reflexivity|].
    intros r Hr' [_ Hjur]. simpl in Hr'.
    destruct Hr' as [<- | [<- | []]]; discriminate Hjur.
  - apply Hr. left. reflexivity.
Defined.

(** ** Placeholders of the precincts operation (C7) *)

(** C7: in each parameter of the precincts operation, that parameter's
    placeholder text adds no condition to the query, and the response
    is the one given when the parameter is omitted. *)
Theorem placeholder_is_no_filter (db : database)
  (county jurisdiction district : option string) :
  (where_clause (Some "Select County") jurisdiction district
   = where_clause None jurisdiction district
   /\ api_precincts db (Some "Select County") jurisdiction district
      = api_precincts db None jurisdiction district)
  /\ (where_clause county (Some "Select Jurisdiction") district
      = where_clause county None district
      /\ api_precincts db county (Some "Select Jurisdiction") district
         = api_precincts db county None district)
  /\ (where_clause county jurisdiction (Some "Select District")
      = where_clause county jurisdiction None
      /\ api_precincts db county jurisdiction (Some "Select District")
         = api_precincts db county jurisdiction None).
Proof. repeat split. Qed.

(** ** The debug summary (C8) *)



Lemma NoDup_firstn {A : Type} (n : nat) (l : list A) :
  NoDup l -> NoDup (firstn n l).
Proof.
  intros H. rewrite <- (firstn_skipn n l) in H.
  now apply NoDup_app_remove_r in H.
Qed.



(** ** The results loader (C4, C10) *)

Lemma fold_on_data (rows : list csv_row) :
  forall t, fold_left on_data rows t
            = t ++ map (fun row => insert_result (results_args row)) rows.
Proof.
  induction rows as [|row rows IH]; simpl; intros t.
  - now rewrite List.app_nil_r.
  - rewrite IH. unfold on_data. now rewrite <- List.app_assoc.
Qed.

Lemma import_csv_map (rows : list csv_row) :
  import_csv rows = map (fun row => insert_result (results_args row)) rows.
Proof. unfold import_csv. now rewrite fold_on_data. Qed.

Lemma text_field (name : string) (row : csv_row) :
  text_affinity (bind_parameter (field name row)) = get name row.
Proof. unfold field. now destruct (get name row). Qed.

(** C10: the party of each stored result is the [party_simplified]
    field of the record it was loaded from; when no record has that
    field every stored party is NULL, whatever a [party] column
    holds. *)
Theorem party_is_party_simplified (rows : list csv_row) :
  (forall row, In row rows -> get "party_simplified" row = None) ->
  (forall r, In r (import_csv rows) <->
             exists row, In row rows /\ r = insert_result (results_args row))
  /\ (forall row, results.party (insert_result (results_args row))
                  = get "party_simplified" row)
  /\ Forall (fun r => results.party r = None) (import_csv rows).
Proof.
  intros Hnone.
  assert (Hrows : forall r, In r (import_csv rows) <->
                    exists row, In row rows /\ r = insert_result (results_args row)).
  { intros r. rewrite import_csv_map, in_map_iff.
    split; intros [row [H1 H2]]; exists row; auto. }
  split; [exact Hrows|]. split; [intros row; apply text_field|].
  apply Forall_forall. intros r Hr.
  apply Hrows in Hr. destruct Hr as [row [Hrow ->]].
  simpl. rewrite text_field. now apply Hnone.
Qed.

Lemma party_is_party_simplified_witness :
  map (get "party") csv_party_only = [Some "X"; Some "Y"]
  /\ Forall (fun r => results.party r = None) (import_csv csv_party_only).
Proof.
  split; [reflexivity|].
  apply (party_is_party_simplified csv_party_only).
  intros row [<- | [<- | []]]; reflexivity.
Defined.

Lemma read_digits_no_digit (s : list ascii) :
  (forall c, In c s -> is_digit c = false) ->
  fst (read_digits s) = Decimal.Nil.
Proof.
  destruct s as [|c s]; simpl; intros H; [reflexivity|].
  specialize (H c (or_introl eq_refl)). unfold is_digit in H.
  destruct (digit_of c); [discriminate|reflexivity].
Qed.

Lemma integer_literal_no_digit (s : string) :
  (forall c, In c (chars s) -> is_digit c = false) ->
  integer_literal s = None.
Proof.
  intros H. unfold integer_literal.
  destruct (chars s) as [|c r] eqn:E.
  - reflexivity.
  - assert (Hr : forall x, In x r -> is_digit x = false)
      by (intros x Hx; apply H; now right).
    assert (Hcr : forall x, In x (c :: r) -> is_digit x = false) by exact H.
    apply read_digits_no_digit in Hr. apply read_digits_no_digit in Hcr.
    destruct (c =? "-")%char; [|destruct (c =? "+")%char].
    + destruct (read_digits r) as [u rest]. simpl in Hr. now subst u.
    + destruct (read_digits r) as [u rest]. simpl in Hr. now subst u.
    + destruct (read_digits (c :: r)) as [u rest]. simpl in Hcr. now subst u.
Qed.

Lemma uint_chars_head (u : Decimal.uint) :
  match uint_chars u with
  | [] => True
  | c :: _ => (c =? "-")%char = false /\ (c =? "+")%char = false
  end.
Proof. destruct u; simpl; auto. Qed.

Lemma read_all_digits (n : N) :
  read_digits (uint_chars (N.to_uint n)) = (N.to_uint n, []).
Proof.
  rewrite <- (List.app_nil_r (uint_chars (N.to_uint n))).
  now apply read_digits_uint_chars.
Qed.

Lemma to_uint_not_Nil (n : N) : N.to_uint n <> Decimal.Nil.
Proof.
  destruct (to_uint_shape n) as [H | H]; [now rewrite H|].
  intros E. now rewrite E in H.
Qed.

(** The decimal text of an integer is an integer literal for it. *)
Lemma integer_literal_decimal (z : Z) : integer_literal (decimal z) = Some z.
Proof.
  unfold integer_literal, decimal, chars.
  rewrite list_ascii_of_string_of_list_ascii. unfold decimal_chars.
  destruct (z <? 0)%Z eqn:Hneg.
  - simpl. rewrite read_all_digits.
    pose proof (to_uint_not_Nil (Z.abs_N z)) as Hnil.
    destruct (N.to_uint (Z.abs_N z)) eqn:E; try contradiction;
      rewrite <- E, DecimalN.Unsigned.of_to, N2Z.inj_abs_N;
      apply Z.ltb_lt in Hneg; f_equal; lia.
  - pose proof (uint_chars_head (N.to_uint (Z.abs_N z))) as Hhead.
    pose proof (uint_chars_nonempty (Z.abs_N z)) as Hne.
    pose proof (read_all_digits (Z.abs_N z)) as Hread.
    destruct (uint_chars (N.to_uint (Z.abs_N z))) as [|c r]; [contradiction|].
    destruct Hhead as [-> ->]. rewrite Hread.
    pose proof (to_uint_not_Nil (Z.abs_N z)) as Hnil.
    destruct (N.to_uint (Z.abs_N z)) eqn:E; try contradiction;
      rewrite <- E, DecimalN.Unsigned.of_to, N2Z.inj_abs_N;
      apply Z.ltb_ge in Hneg; f_equal; lia.
Qed.

(** C4, as stated, fails: the votes "10" and "007" of the CSV are
    stored as the integers 10 and 7, and that is what the results
    operation returns. *)
Lemma votes_text_is_stored_as_integer :
  map (get "votes") csv_party_only = [Some "10"; Some "007"]
  /\ map results.votes (import_csv csv_party_only) = [SInteger 10; SInteger 7]
  /\ map results.votes (import_csv csv_party_only)
     <> map (fun row => bind_parameter (field "votes" row)) csv_party_only
  /\ api_results (startup [csv_party_only_row] []) (Some "P1")
     = json_200
         (JArr [JObj [("pctkey", JStr "P1"); ("office", JStr "Mayor");
                      ("candidate", JStr "B"); ("votes", JNum 7);
                      ("party", JNull)]]).
Proof. repeat split; discriminate. Qed.

(** C4, amended: the loader binds the record's votes field as it was
    read, without converting it; the votes column is declared INTEGER,
    so the store keeps a votes text that is an integer literal (within
    64 bits) as that integer, the decimal text of an integer in
    particular; a text without any digit is kept as text, and an absent
    field is stored as NULL. *)
Theorem votes_are_stored_under_integer_affinity (row : csv_row) :
  let stored := results.votes (insert_result (results_args row)) in
  nth 3 (results_args row) None = field "votes" row
  /\ (get "votes" row = None -> stored = SNull)
  /\ (forall s z, get "votes" row = Some s ->
                  integer_literal s = Some z -> int64 z = true ->
                  stored = SInteger z)
  /\ (forall z, get "votes" row = Some (decimal z) -> int64 z = true ->
                stored = SInteger z)
  /\ (forall s, get "votes" row = Some s ->
                (forall c, In c (chars s) -> is_digit c = false) ->
                stored = SText s).
Proof.
  simpl. unfold field.
  split; [reflexivity|]. split; [|split; [|split]].
  - intros ->. reflexivity.
  - intros s z -> Hlit Hrange. simpl. now rewrite Hlit, Hrange.
  - intros z -> Hrange. simpl. now rewrite integer_literal_decimal, Hrange.
  - intros s -> Hnone. simpl. now rewrite integer_literal_no_digit.
Qed.

Lemma votes_are_stored_under_integer_affinity_witness :
  results.votes (insert_result (results_args csv_party_only_row)) = SInteger 7
  /\ results.votes (insert_result (results_args [("votes", decimal 1203)]))
     = SInteger 1203
  /\ results.votes (insert_result (results_args [("votes", "n/a")])) = SText "n/a"
  /\ results.votes (insert_result (results_args [("party", "X")])) = SNull.
Proof.
  split; [|split; [|split]].
  - destruct (votes_are_stored_under_integer_affinity csv_party_only_row)
      as [_ [_ [H _]]].
    apply (H "007" 7%Z); reflexivity.
  - destruct (votes_are_stored_under_integer_affinity [("votes", decimal 1203)])
      as [_ [_ [_ [H _]]]].
    apply (H 1203%Z); reflexivity.
  - destruct (votes_are_stored_under_integer_affinity [("votes", "n/a")])
      as [_ [_ [_ [_ H]]]].
    apply (H "n/a"); [reflexivity|].
    intros c [<- | [<- | [<- | []]]]; reflexivity.
  - destruct (votes_are_stored_under_integer_affinity [("party", "X")])
      as [_ [H _]].
    apply H. reflexivity.
Defined.

(** ** JSON.parse after JSON.stringify *)

Lemma parse_quote_char (c : ascii) (tail : list ascii) :
  JSON.parse_chars (JSON.quote_char c ++ tail)
  = JSON.cons_char c (JSON.parse_chars tail).
Proof.
  destruct c as [[] [] [] [] [] [] [] []]; reflexivity.
Qed.

Lemma parse_quoted (cs rest : list ascii) :
  JSON.parse_chars (flat_map JSON.quote_char cs ++ dquote :: rest)
  = Some (cs, rest).
Proof.
  induction cs as [|c cs IH]; simpl.
  - reflexivity.
  - rewrite <- List.app_assoc, parse_quote_char, IH. reflexivity.
Qed.

Lemma parse_quote (s : string) (rest : list ascii) :
  exists body,
    JSON.quote s ++ rest = dquote :: body
    /\ JSON.parse_chars body = Some (chars s, rest).
Proof.
  exists (flat_map JSON.quote_char (chars s) ++ dquote :: rest). split.
  - unfold JSON.quote. simpl. now rewrite <- List.app_assoc.
  - apply parse_quoted.
Qed.

Lemma value_start_facts (c : ascii) :
  value_start c = true ->
  JSON.is_ws c = false /\ (c =? "]")%char = false /\ (c =? "}")%char = false.
Proof.
  destruct c as [[] [] [] [] [] [] [] []]; intros H;
    try discriminate H; repeat split.
Qed.

Lemma digit_facts (c : ascii) :
  is_digit c = true ->
  JSON.is_ws c = false
  /\ (c =? "n")%char = false /\ (c =? "t")%char = false
  /\ (c =? "f")%char = false /\ (c =? dquote)%char = false
  /\ (c =? "[")%char = false /\ (c =? "{")%char = false
  /\ (c =? "-")%char = false.
Proof.
  destruct c as [[] [] [] [] [] [] [] []]; intros H;
    try discriminate H; repeat split.
Qed.

Lemma uint_chars_digits (u : Decimal.uint) :
  match uint_chars u with
  | [] => True
  | c :: _ => is_digit c = true
  end.
Proof. destruct u; simpl; auto. Qed.

Lemma plain_digits_to_uint (n : N) : JSON.plain_digits (N.to_uint n) = true.
Proof.
  destruct (to_uint_shape n) as [-> | H]; [reflexivity|].
  destruct (N.to_uint n); simpl in H; try contradiction; reflexivity.
Qed.

Lemma starts_fraction_false (rest : list ascii) :
  starts_fraction rest = false ->
  JSON.exponent_ahead rest = false
  /\ match rest with
     | c :: _ => (c =? ".")%char = false
     | [] => True
     end.
Proof.
  destruct rest as [|c rest]; simpl; [auto|].
  intros H. apply orb_false_iff in H. destruct H as [H He].
  apply orb_false_iff in H. destruct H as [Hp He'].
  rewrite He', He. auto.
Qed.

Lemma parse_number_integer (neg : bool) (n : N) (tail : list ascii) :
  no_digit_ahead tail ->
  JSON.parse_number
    ((if neg then ["-"%char] else []) ++ uint_chars (N.to_uint n) ++ tail)
  = JSON.after_integer neg n tail.
Proof.
  intros Htail. unfold JSON.parse_number.
  pose proof (read_digits_uint_chars (N.to_uint n) tail Htail) as Hread.
  destruct neg.
  - cbn [app]. change (("-"%char =? "-")%char) with true. cbv iota.
    rewrite Hread, plain_digits_to_uint, DecimalN.Unsigned.of_to. reflexivity.
  - cbn [app].
    pose proof (uint_chars_digits (N.to_uint n)) as Hhead.
    pose proof (uint_chars_nonempty n) as Hne.
    destruct (uint_chars (N.to_uint n)) as [|c r]; [contradiction|].
    apply digit_facts in Hhead.
    destruct Hhead as [_ [_ [_ [_ [_ [_ [_ Hminus]]]]]]].
    change ((c :: r) ++ tail) with (c :: (r ++ tail)) in *.
    cbv beta iota. rewrite Hminus. cbv beta iota zeta.
    rewrite Hread, plain_digits_to_uint, DecimalN.Unsigned.of_to. reflexivity.
Qed.

Lemma decimal_chars_signed (z : Z) :
  decimal_chars z
  = (if (z <? 0)%Z then ["-"%char] else []) ++ uint_chars (N.to_uint (Z.abs_N z))
  /\ JSON.signed (z <? 0)%Z (Z.abs_N z) = z.
Proof.
  unfold decimal_chars, JSON.signed. rewrite N2Z.inj_abs_N.
  destruct (z <? 0)%Z eqn:E; split; try reflexivity.
  - apply Z.ltb_lt in E. lia.
  - apply Z.ltb_ge in E. lia.
Qed.

Lemma parse_number_decimal (z : Z) (rest : list ascii) :
  value_ends rest ->
  JSON.parse_number (decimal_chars z ++ rest) = Some (JNum z, rest).
Proof.
  intros [Hdigit Hfrac].
  destruct (decimal_chars_signed z) as [-> Hsigned].
  rewrite <- List.app_assoc, parse_number_integer by exact Hdigit.
  unfold JSON.after_integer. rewrite Hsigned.
  apply starts_fraction_false in Hfrac. destruct Hfrac as [-> Hpoint].
  destruct rest as [|c rest]; [reflexivity|]. now rewrite Hpoint.
Qed.

Lemma canonical_fraction_nztail (f : Decimal.uint) :
  canonical_fraction f = true -> DecimalFacts.nztail f = f /\ f <> Decimal.Nil.
Proof.
  induction f; simpl; intros H; try discriminate;
    (split; [|discriminate]);
    try (destruct f; [reflexivity|..];
         (destruct (IHf H) as [-> _]; reflexivity)).
  destruct (IHf H) as [-> Hne]. destruct f; [contradiction|..]; reflexivity.
Qed.

Lemma parse_number_dec (neg : bool) (n : N) (f : Decimal.uint)
  (rest : list ascii) :
  canonical_fraction f = true ->
  value_ends rest ->
  JSON.parse_number (JSON.print_dec neg n f ++ rest)
  = Some (JDec neg n f, rest).
Proof.
  intros Hf [Hdigit Hfrac]. unfold JSON.print_dec.
  rewrite <- !List.app_assoc. cbn [app].
  rewrite parse_number_integer by reflexivity.
  unfold JSON.after_integer. cbn [JSON.exponent_ahead].
  change (("."%char =? "e")%char || ("."%char =? "E")%char) with false.
  change (("."%char =? ".")%char) with true. cbv iota.
  rewrite (read_digits_uint_chars f rest Hdigit).
  apply starts_fraction_false in Hfrac. destruct Hfrac as [-> _].
  apply canonical_fraction_nztail in Hf. destruct Hf as [-> Hne].
  destruct f; [contradiction|..]; reflexivity.
Qed.

Lemma json_induction (P : json -> Prop) :
  (forall p, P (JPrim p)) ->
  (forall neg n f, P (JDec neg n f)) ->
  (forall items, Forall P items -> P (JArr items)) ->
  (forall members, Forall (fun kv => P (snd kv)) members -> P (JObj members)) ->
  forall v, P v.
Proof.
  intros Hprim Hdec Harr Hobj. fix IH 1. intros [p | neg n f | items | members].
  - apply Hprim.
  - apply Hdec.
  - apply Harr. induction items as [|x items IHitems]; constructor.
    + apply IH.
    + exact IHitems.
  - apply Hobj. induction members as [|[k x] members IHmembers]; constructor.
    + apply IH.
    + exact IHmembers.
Qed.

Lemma number_start_facts (c : ascii) :
  (c =? "-")%char || is_digit c = true ->
  value_start c = true
  /\ (c =? "n")%char = false /\ (c =? "t")%char = false
  /\ (c =? "f")%char = false /\ (c =? dquote)%char = false
  /\ (c =? "[")%char = false /\ (c =? "{")%char = false.
Proof.
  destruct c as [[] [] [] [] [] [] [] []]; intros H;
    try discriminate H; repeat split.
Qed.

Lemma decimal_chars_head (z : Z) :
  exists c tl, decimal_chars z = c :: tl
               /\ (c =? "-")%char || is_digit c = true.
Proof.
  unfold decimal_chars. destruct (z <? 0)%Z.
  - eexists _, _. split; reflexivity.
  - pose proof (uint_chars_digits (N.to_uint (Z.abs_N z))) as Hhead.
    pose proof (uint_chars_nonempty (Z.abs_N z)) as Hne.
    destruct (uint_chars (N.to_uint (Z.abs_N z))) as [|c r]; [contradiction|].
    exists c, r. split; [reflexivity|]. rewrite Hhead. apply orb_true_r.
Qed.

Lemma print_dec_head (neg : bool) (n : N) (f : Decimal.uint) :
  exists c tl, JSON.print_dec neg n f = c :: tl
               /\ (c =? "-")%char || is_digit c = true.
Proof.
  unfold JSON.print_dec. destruct neg.
  - eexists _, _. split; reflexivity.
  - pose proof (uint_chars_digits (N.to_uint n)) as Hhead.
    pose proof (uint_chars_nonempty n) as Hne.
    destruct (uint_chars (N.to_uint n)) as [|c r]; [contradiction|].
    eexists _, _. split; [reflexivity|]. rewrite Hhead. apply orb_true_r.
Qed.

Lemma print_head (v : json) :
  exists c tl, JSON.print v = c :: tl /\ value_start c = true.
Proof.
  destruct v as [[| [] | z | s] | neg n f | items | members];
    try (eexists _, _; split; reflexivity).
  - destruct (decimal_chars_head z) as [c [tl [E H]]].
    exists c, tl. split; [exact E|]. now apply number_start_facts.
  - destruct (print_dec_head neg n f) as [c [tl [E H]]].
    exists c, tl. split; [exact E|]. now apply number_start_facts.
Qed.

Lemma value_ends_comma (rest : list ascii) : value_ends (","%char :: rest).
Proof. split; reflexivity. Qed.

Lemma value_ends_bracket (rest : list ascii) : value_ends ("]"%char :: rest).
Proof. split; reflexivity. Qed.

Lemma value_ends_brace (rest : list ascii) : value_ends ("}"%char :: rest).
Proof. split; reflexivity. Qed.

Lemma value_ends_nil : value_ends [].
Proof. split; reflexivity. Qed.


(** One step of [parse_value], by the first character. *)
Lemma parse_value_string (fuel : nat) (body : list ascii) :
  JSON.parse_value (S fuel) (dquote :: body)
  = match JSON.parse_chars body with
    | Some (cs, r') => Some (JStr (string_of_list_ascii cs), r')
    | None => None
    end.
Proof. reflexivity. Qed.

Lemma parse_value_array (fuel : nat) (r : list ascii) :
  JSON.parse_value (S fuel) ("["%char :: r)
  = match JSON.skip_ws r with
    | [] => None
    | c' :: r' =>
        if (c' =? "]")%char then Some (JArr [], r')
        else
          match JSON.parse_elements fuel r with
          | Some (items, r'') => Some (JArr items, r'')
          | None => None
          end
    end.
Proof. reflexivity. Qed.

Lemma parse_value_object (fuel : nat) (r : list ascii) :
  JSON.parse_value (S fuel) ("{"%char :: r)
  = match JSON.skip_ws r with
    | [] => None
    | c' :: r' =>
        if (c' =? "}")%char then Some (JObj [], r')
        else
          match JSON.parse_members fuel r with
          | Some (members, r'') => Some (JSON.build_object members, r'')
          | None => None
          end
    end.
Proof. reflexivity. Qed.

Lemma parse_value_number (fuel : nat) (c : ascii) (r : list ascii) :
  (c =? "-")%char || is_digit c = true ->
  JSON.parse_value (S fuel) (c :: r)
  = JSON.parse_number (c :: r).
Proof.
  intros H. apply number_start_facts in H.
  destruct H as [Hstart [Hn [Ht [Hf [Hq [Hb Hc]]]]]].
  apply value_start_facts in Hstart. destruct Hstart as [Hws _].
  cbn [JSON.parse_value JSON.skip_ws].
  now rewrite Hws, Hn, Ht, Hf, Hq, Hb, Hc.
Qed.

Lemma skip_ws_value_start (c : ascii) (r : list ascii) :
  value_start c = true -> JSON.skip_ws (c :: r) = c :: r.
Proof.
  intros H. apply value_start_facts in H. destruct H as [Hws _].
  simpl. now rewrite Hws.
Qed.

Lemma parse_prim (p : jsprim) : parses (JPrim p).
Proof.
  intros fuel rest Hfuel Hends. simpl in Hfuel.
  destruct fuel as [|fuel]; [lia|].
  destruct p as [| [] | z | s]; try reflexivity.
  - destruct (decimal_chars_head z) as [c [tl [E H]]].
    pose proof (parse_number_decimal z rest Hends) as Hnum.
    cbn [JSON.print JSON.print_prim]. rewrite E in *.
    change ((c :: tl) ++ rest) with (c :: (tl ++ rest)) in *.
    now rewrite (parse_value_number _ _ _ H), Hnum.
  - destruct (parse_quote s rest) as [body [E Hbody]].
    cbn [JSON.print JSON.print_prim]. rewrite E.
    rewrite parse_value_string, Hbody.
    unfold chars. now rewrite string_of_list_ascii_of_string.
Qed.

Lemma parse_dec (neg : bool) (n : N) (f : Decimal.uint) :
  canonical_fraction f = true -> parses (JDec neg n f).
Proof.
  intros Hf fuel rest Hfuel Hends. simpl in Hfuel.
  destruct fuel as [|fuel]; [lia|].
  destruct (print_dec_head neg n f) as [c [tl [E H]]].
  pose proof (parse_number_dec neg n f rest Hf Hends) as Hnum.
  cbn [JSON.print]. rewrite E in *.
  change ((c :: tl) ++ rest) with (c :: (tl ++ rest)) in *.
  now rewrite (parse_value_number _ _ _ H).
Qed.

Lemma joined_head {A : Type} (pr : A -> list ascii) (items : list A)
  (rest : list ascii) :
  items <> [] ->
  (forall x, In x items -> exists c tl, pr x = c :: tl /\ value_start c = true) ->
  exists c tl, JSON.joined pr items ++ rest = c :: tl /\ value_start c = true.
Proof.
  destruct items as [|x items]; [congruence|]. intros _ Hhead.
  destruct (Hhead x (or_introl eq_refl)) as [c [tl [E Hc]]].
  destruct items as [|y items]; simpl; rewrite E; simpl; eauto.
Qed.

Lemma joined_cons {A : Type} (pr : A -> list ascii) (x y : A) (l : list A) :
  JSON.joined pr (x :: y :: l) = pr x ++ ","%char :: JSON.joined pr (y :: l).
Proof. reflexivity. Qed.

Lemma parse_elements_step (fuel : nat) (s : list ascii) :
  JSON.parse_elements (S fuel) s
  = match JSON.parse_value fuel s with
    | None => None
    | Some (v, r) =>
        match JSON.skip_ws r with
        | [] => None
        | c :: r' =>
            if (c =? ",")%char then
              match JSON.parse_elements fuel r' with
              | Some (vs, r'') => Some (v :: vs, r'')
              | None => None
              end
            else if (c =? "]")%char then Some ([v], r')
            else None
        end
    end.
Proof. reflexivity. Qed.

Lemma parse_elements_joined (items : list json) :
  items <> [] ->
  Forall parses items ->
  forall fuel rest,
    (list_sum (map (fun x => S (weight x)) items) <= fuel)%nat ->
    JSON.parse_elements fuel (JSON.joined JSON.print items ++ "]"%char :: rest)
    = Some (items, rest).
Proof.
  induction items as [|x items IH]; [congruence|].
  intros _ Hall fuel rest Hfuel.
  inversion Hall as [|? ? Hx Hitems]; subst.
  unfold list_sum in Hfuel. cbn [map fold_right] in Hfuel.
  destruct fuel as [|fuel]; [lia|].
  rewrite parse_elements_step.
  destruct items as [|y items].
  - cbn [JSON.joined].
    rewrite (Hx fuel ("]"%char :: rest));
      [reflexivity|lia|apply value_ends_bracket].
  - rewrite joined_cons, <- List.app_assoc. cbn [app].
    rewrite (Hx fuel); [|lia|apply value_ends_comma].
    change (JSON.skip_ws (","%char :: ?l)) with (","%char :: l).
    change ((","%char =? ",")%char) with true. cbv iota.
    rewrite IH; [reflexivity|discriminate|exact Hitems|].
    unfold list_sum in *. cbn [map fold_right] in *. lia.
Qed.
Lemma parse_members_step (fuel : nat) (body : list ascii) :
  JSON.parse_members (S fuel) (dquote :: body)
  = match JSON.parse_chars body with
    | None => None
    | Some (k, r1) =>
        match JSON.skip_ws r1 with
        | [] => None
        | colon :: r2 =>
            if (colon =? ":")%char then
              match JSON.parse_value fuel r2 with
              | None => None
              | Some (v, r3) =>
                  match JSON.skip_ws r3 with
                  | [] => None
                  | c :: r4 =>
                      if (c =? ",")%char then
                        match JSON.parse_members fuel r4 with
                        | Some (ms, r5) =>
                            Some ((string_of_list_ascii k, v) :: ms, r5)
                        | None => None
                        end
                      else if (c =? "}")%char
                           then Some ([(string_of_list_ascii k, v)], r4)
                           else None
                  end
              end
            else None
        end
    end.
Proof. reflexivity. Qed.

Lemma print_member_parse (k : string) (v : json) (tail : list ascii) :
  exists body,
    print_member (k, v) ++ tail = dquote :: body
    /\ JSON.parse_chars body
       = Some (chars k, ":"%char :: JSON.print v ++ tail).
Proof.
  unfold print_member. simpl fst. simpl snd.
  rewrite <- List.app_assoc. apply parse_quote.
Qed.

Lemma parse_members_joined (members : list (string * json)) :
  members <> [] ->
  Forall (fun kv => parses (snd kv)) members ->
  forall fuel rest,
    (list_sum (map (fun kv => S (weight (snd kv))) members) <= fuel)%nat ->
    JSON.parse_members fuel (JSON.joined print_member members ++ "}"%char :: rest)
    = Some (members, rest).
Proof.
  induction members as [|[k v] members IH]; [congruence|].
  intros _ Hall fuel rest Hfuel.
  inversion Hall as [|? ? Hv Hmembers]; subst. simpl in Hv.
  unfold list_sum in Hfuel. cbn [map fold_right snd] in Hfuel.
  destruct fuel as [|fuel]; [lia|].
  destruct members as [|m members].
  - cbn [JSON.joined].
    destruct (print_member_parse k v ("}"%char :: rest)) as [body [E Hbody]].
    rewrite E, parse_members_step, Hbody.
    change (JSON.skip_ws (":"%char :: ?l)) with (":"%char :: l).
    change ((":"%char =? ":")%char) with true. cbv iota.
    rewrite (Hv fuel); [|lia|apply value_ends_brace].
    unfold chars. rewrite string_of_list_ascii_of_string. reflexivity.
  - rewrite joined_cons, <- List.app_assoc. cbn [app].
    destruct (print_member_parse k v
                (","%char :: JSON.joined print_member (m :: members)
                   ++ "}"%char :: rest)) as [body [E Hbody]].
    rewrite E, parse_members_step, Hbody.
    change (JSON.skip_ws (":"%char :: ?l)) with (":"%char :: l).
    change ((":"%char =? ":")%char) with true. cbv iota.
    rewrite (Hv fuel); [|lia|apply value_ends_comma].
    change (JSON.skip_ws (","%char :: ?l)) with (","%char :: l).
    change ((","%char =? ",")%char) with true. cbv iota.
    rewrite IH; [|discriminate|exact Hmembers|].
    + unfold chars. rewrite string_of_list_ascii_of_string. reflexivity.
    + unfold list_sum in *. cbn [map fold_right] in *. lia.
Qed.

(** Distinct keys are kept as they are by [build_object]. *)
Lemma set_fresh {A : Type} (name : string) (v : A) (obj : object A) :
  existsb (String.eqb name) (map fst obj) = false ->
  set name v obj = obj ++ [(name, v)].
Proof.
  induction obj as [|[k w] obj IH]; simpl; intros H; [reflexivity|].
  apply orb_false_iff in H. destruct H as [Hk Hrest].
  rewrite String.eqb_sym, Hk. now rewrite IH.
Qed.

Lemma existsb_app_false {A : Type} (f : A -> bool) (l1 l2 : list A) :
  existsb f (l1 ++ l2) = false <-> existsb f l1 = false /\ existsb f l2 = false.
Proof. rewrite existsb_app. apply orb_false_iff. Qed.

Lemma fold_set_distinct (members acc : list (string * json)) :
  distinct_keys (map fst members) = true ->
  (forall k, In k (map fst members) ->
             existsb (String.eqb k) (map fst acc) = false) ->
  fold_left (fun obj kv => set (fst kv) (snd kv) obj) members acc
  = acc ++ members.
Proof.
  revert acc. induction members as [|[k v] members IH]; intros acc Hd Hacc.
  - simpl. now rewrite List.app_nil_r.
  - simpl in Hd. apply andb_true_iff in Hd. destruct Hd as [Hk Hd].
    apply negb_true_iff in Hk.
    cbn [fold_left fst snd].
    rewrite set_fresh by (apply Hacc; now left).
    rewrite IH; [now rewrite <- List.app_assoc|exact Hd|].
    intros k' Hk'. rewrite map_app. apply existsb_app_false. split.
    + apply Hacc. now right.
    + simpl. rewrite orb_false_r.
      destruct (String.eqb k' k) eqn:E; [|reflexivity].
      apply String.eqb_eq in E. subst k'.
      assert (Hex : existsb (String.eqb k) (map fst members) = true).
      { apply existsb_exists. exists k. split; [exact Hk'|apply String.eqb_refl]. }
      congruence.
Qed.

Lemma build_object_distinct (members : list (string * json)) :
  distinct_keys (map fst members) = true ->
  JSON.build_object members = JObj members.
Proof.
  intros H. unfold JSON.build_object.
  rewrite fold_set_distinct; [reflexivity|exact H|reflexivity].
Qed.

Lemma print_member_head (kv : string * json) :
  exists c tl, print_member kv = c :: tl /\ value_start c = true.
Proof. eexists _, _. split; reflexivity. Qed.

(** Every well-formed value reads back from its own text. *)
Lemma well_formed_parses (v : json) : well_formed v = true -> parses v.
Proof.
  induction v as [p | neg n f | items IH | members IH] using json_induction;
    intros Hwf.
  - apply parse_prim.
  - now apply parse_dec.
  - assert (Hall : Forall parses items).
    { simpl in Hwf. rewrite forallb_forall in Hwf.
      rewrite Forall_forall in *. intros x Hx. apply IH; auto. }
    intros fuel rest Hfuel Hends. cbn [weight] in Hfuel.
    destruct fuel as [|fuel]; [lia|].
    cbn [JSON.print]. cbn [app]. rewrite <- List.app_assoc. cbn [app].
    rewrite parse_value_array.
    destruct items as [|x items]; [reflexivity|].
    destruct (joined_head JSON.print (x :: items) ("]"%char :: rest))
      as [c [tl [E Hc]]]; [discriminate|intros; apply print_head|].
    rewrite E, (skip_ws_value_start _ _ Hc).
    apply value_start_facts in Hc. destruct Hc as [_ [-> _]].
    rewrite <- E, parse_elements_joined; [reflexivity|discriminate|exact Hall|lia].
  - simpl in Hwf. apply andb_true_iff in Hwf. destruct Hwf as [Hkeys Hwf].
    assert (Hall : Forall (fun kv => parses (snd kv)) members).
    { rewrite forallb_forall in Hwf.
      rewrite Forall_forall in *. intros x Hx. apply IH; auto. }
    intros fuel rest Hfuel Hends. cbn [weight] in Hfuel.
    destruct fuel as [|fuel]; [lia|].
    cbn [JSON.print]. cbn [app]. rewrite <- List.app_assoc. cbn [app].
    rewrite parse_value_object.
    destruct members as [|m members]; [reflexivity|].
    change (JSON.joined
              (fun kv => JSON.quote (fst kv) ++ ":"%char :: JSON.print (snd kv)))
      with (JSON.joined print_member).
    destruct (joined_head print_member (m :: members) ("}"%char :: rest))
      as [c [tl [E Hc]]]; [discriminate|intros; apply print_member_head|].
    rewrite E, (skip_ws_value_start _ _ Hc).
    apply value_start_facts in Hc. destruct Hc as [_ [_ ->]].
    rewrite <- E, parse_members_joined; [|discriminate|exact Hall|lia].
    now rewrite build_object_distinct.
Qed.
Lemma joined_length {A : Type} (pr : A -> list ascii) (mu : A -> nat)
  (items : list A) :
  Forall (fun x => (mu x <= List.length (pr x))%nat) items ->
  (list_sum (map (fun x => S (mu x)) items)
   <= S (List.length (JSON.joined pr items)))%nat.
Proof.
  induction 1 as [|x items Hx Hitems IH].
  - simpl. lia.
  - destruct items as [|y items].
    + simpl. lia.
    + rewrite joined_cons, length_app. cbn [List.length].
      unfold list_sum in *. cbn [map fold_right] in *. lia.
Qed.

Lemma weight_le_length (v : json) : (weight v <= List.length (JSON.print v))%nat.
Proof.
  induction v as [p | neg n f | items IH | members IH] using json_induction.
  - simpl. destruct p as [| [] | z | s]; simpl; try lia.
    pose proof (decimal_chars_nonempty z).
    destruct (decimal_chars z); [contradiction|simpl; lia].
  - destruct (print_dec_head neg n f) as [c [tl [E _]]].
    cbn [weight JSON.print]. rewrite E. simpl. lia.
  - cbn [weight JSON.print List.length]. rewrite length_app. cbn [List.length].
    pose proof (joined_length JSON.print weight items IH). lia.
  - cbn [weight JSON.print List.length]. rewrite length_app. cbn [List.length].
    pose proof (joined_length
                  (fun kv => JSON.quote (fst kv) ++ ":"%char :: JSON.print (snd kv))
                  (fun kv => weight (snd kv)) members) as H.
    assert (Hall : Forall (fun kv : string * json =>
                (weight (snd kv)
                 <= List.length (JSON.quote (fst kv) ++ ":"%char :: JSON.print (snd kv)))%nat)
               members).
    { eapply Forall_impl; [|exact IH]. intros kv Hkv. cbv beta in Hkv.
      rewrite length_app. simpl. lia. }
    specialize (H Hall). cbv beta in H. lia.
Qed.

(** [JSON.parse(JSON.stringify(v))] is [v]. *)
Lemma parse_stringify (v : json) :
  well_formed v = true -> JSON.parse (JSON.stringify v) = Some v.
Proof.
  intros Hwf. unfold JSON.parse, JSON.stringify, chars, JSON.parse_text.
  rewrite list_ascii_of_string_of_list_ascii.
  pose proof (well_formed_parses v Hwf
                (S (List.length (JSON.print v))) [] ) as H.
  rewrite List.app_nil_r in H. rewrite H; [reflexivity| |apply value_ends_nil].
  pose proof (weight_le_length v). lia.
Qed.

(** ** Geometry round trip (C3) *)


Lemma parse_geometry_stored (a : precinct_args) :
  parse_geometry (precincts.geometry (precinct_row a))
  = JSON.parse (arg_geometry a).
Proof. reflexivity. Qed.

Lemma map_features_loaded (features : list feature) (rows : list precincts.row) :
  Forall (fun feat => well_formed (geometry feat) = true) features ->
  (forall r, In r rows -> In r (import_geojson features)) ->
  exists out : list json,
    map_features rows = Some out
    /\ Forall2 (fun r o =>
                  exists k feat props,
                    nth_error features k = Some feat
                    /\ properties feat = Some props
                    /\ r = precinct_row (map_feature k props (geometry feat))
                    /\ precincts.geometry r = Some (JSON.stringify (geometry feat))
                    /\ o = feature_json r (geometry feat))
               rows out.
Proof.
  intros Hwf. induction rows as [|r rows IH]; intros Hrows.
  - exists []. split; [reflexivity|constructor].
  - destruct IH as [out [Hout Hall]]; [intros; apply Hrows; now right|].
    destruct (import_geojson_rows features r (Hrows r (or_introl eq_refl)))
      as [k [feat [props [Hk [Hp Hr]]]]].
    assert (Hgeom : well_formed (geometry feat) = true).
    { rewrite Forall_forall in Hwf. apply Hwf. eapply nth_error_In; eassumption. }
    exists (feature_json r (geometry feat) :: out). split.
    + cbn [map_features]. rewrite Hr at 1. rewrite parse_geometry_stored.
      cbn [arg_geometry map_feature]. rewrite (parse_stringify _ Hgeom), Hout.
      reflexivity.
    + constructor; [|exact Hall].
      exists k, feat, props. repeat split; auto. now rewrite Hr.
Qed.




(** * Further properties of the loaders and the query service *)

(** ** Counties, jurisdictions, districts *)

(** X1: the counties operation (lines 122-130) answers, on any store,
    with exactly the county values of the precinct rows, as strings in
    ascending order without duplicates; for a store filled by the
    loader none of them is empty. *)
Theorem counties_listed (db : database) :
  exists names : list string,
    api_filters db = json_200 (JArr (map (fun c => JStr c) names))
    /\ (forall c, In c names <->
                  exists r, In r (precincts_table db) /\ precincts.county r = Some c)
    /\ ascending names
    /\ NoDup names
    /\ ((exists csv features, db = startup csv features) -> ~ In "" names).
Proof.
  destruct (select_column_spec precincts.county (fun _ => true) (precincts_table db))
    as [names [Hsel [Hin Hasc]]].
  exists names. split; [|split; [|split; [|split]]].
  - unfold api_filters, select_counties. now rewrite Hsel, map_text_json_Some.
  - intros c. rewrite Hin. split; intros [r H]; exists r; tauto.
  - exact Hasc.
  - now apply ascending_NoDup.
  - intros [csv [features ->]] Hempty. apply Hin in Hempty.
    destruct Hempty as [r [Hr [_ Hc]]].
    apply import_geojson_county in Hr. destruct Hr as [c [Hc' Hne]]. congruence.
Qed.

Lemma counties_listed_witness :
  exists names : list string,
    api_filters (startup [] two_triangles)
    = json_200 (JArr (map (fun c => JStr c) names))
    /\ ~ In "" names.
Proof.
  destruct (counties_listed (startup [] two_triangles))
    as [names [Hresp [_ [_ [_ Hne]]]]].
  exists names. split; [exact Hresp|].
  apply Hne. exists [], two_triangles. reflexivity.
Defined.

Lemma api_districts_members (db : database) (X Y : string) :
  X <> "" -> X <> "Select County" -> Y <> "" -> Y <> "Select Jurisdiction" ->
  exists names : list string,
    api_districts db (Some X) (Some Y)
    = json_200 (JArr (map (fun d => JStr d) names))
    /\ (forall d, In d names <->
                  exists r, In r (precincts_table db)
                            /\ precincts.county r = Some X
                            /\ precincts.jurisdiction r = Some Y
                            /\ precincts.district r = Some d)
    /\ ascending names.
Proof.
  intros HX HXs HY HYs.
  destruct (select_column_spec precincts.district
              (fun r => sql_eq (precincts.county r) (Some X)
                        && sql_eq (precincts.jurisdiction r) (Some Y))
              (precincts_table db)) as [names [Hsel [Hin Hasc]]].
  exists names. split; [|split; [|exact Hasc]].
  - unfold api_districts, missing, is_string.
    apply String.eqb_neq in HX, HXs, HY, HYs.
    rewrite HX, HXs, HY, HYs. simpl. unfold select_districts.
    now rewrite Hsel, map_text_json_Some.
  - intros d. rewrite Hin.
    split; intros [r [H1 [H2 H3]]]; exists r.
    + apply andb_true_iff in H2. destruct H2 as [Hc Hj].
      apply sql_eq_Some in Hc. apply sql_eq_Some in Hj. auto.
    + destruct H3 as [Hj Hd]. split; [exact H1|]. split; [|exact Hd].
      apply andb_true_iff. split; now apply sql_eq_Some.
Qed.

(** X2: for a county and a jurisdiction that are given, not empty and
    not the placeholders, the districts operation (lines 154-172)
    answers with exactly the district values of the rows having that
    county and that jurisdiction, in ascending order without
    duplicates. *)
Theorem districts_of_jurisdiction (db : database) (X Y : string) :
  X <> "" -> X <> "Select County" -> Y <> "" -> Y <> "Select Jurisdiction" ->
  exists names : list string,
    api_districts db (Some X) (Some Y)
    = json_200 (JArr (map (fun d => JStr d) names))
    /\ (forall d, In d names <->
                  exists r, In r (precincts_table db)
                            /\ precincts.county r = Some X
                            /\ precincts.jurisdiction r = Some Y
                            /\ precincts.district r = Some d)
    /\ ascending names
    /\ NoDup names.
Proof.
  intros HX HXs HY HYs.
  destruct (api_districts_members db X Y HX HXs HY HYs)
    as [names [H1 [H2 H3]]].
  exists names. repeat split; auto; try apply H2. now apply ascending_NoDup.
Qed.

Lemma districts_of_jurisdiction_witness :
  exists names : list string,
    api_districts (startup [] districts_9_10) (Some "Dallas") (Some "Irving")
    = json_200 (JArr (map (fun d => JStr d) names))
    /\ (forall d, In d names <->
                  exists r, In r (precincts_table (startup [] districts_9_10))
                            /\ precincts.county r = Some "Dallas"
                            /\ precincts.jurisdiction r = Some "Irving"
                            /\ precincts.district r = Some d)
    /\ ascending names
    /\ NoDup names.
Proof.
  apply (districts_of_jurisdiction (startup [] districts_9_10) "Dallas" "Irving");
    discriminate.
Defined.

(** ** What the loader stores *)

Lemma truthy_ToString (v : jsval) : truthy v = true -> ToString v <> "".
Proof.
  destruct v as [[|[]|n|s]|]; simpl; intros H; try discriminate.
  - apply decimal_nonempty.
  - intros ->. discriminate.
Qed.

Lemma stringify_nonempty (v : json) : JSON.stringify v <> "".
Proof.
  unfold JSON.stringify. destruct (print_head v) as [c [tl [-> _]]]. discriminate.
Qed.

Lemma import_geojson_nonempty (features : list feature) (r : precincts.row) :
  In r (import_geojson features) ->
  (exists key, precincts.pctkey r = Some key /\ key <> "")
  /\ (exists c, precincts.county r = Some c /\ c <> "")
  /\ (exists j, precincts.jurisdiction r = Some j /\ j <> "")
  /\ (exists d, precincts.district r = Some d /\ d <> "")
  /\ (exists g, precincts.geometry r = Some g /\ g <> "").
Proof.
  intros Hr. apply import_geojson_rows in Hr.
  destruct Hr as [k [feat [props [_ [_ ->]]]]].
  split; [|split; [|split; [|split]]].
  - apply truthy_stored, map_feature_pctkey_truthy.
  - apply truthy_stored, map_feature_county_truthy.
  - apply truthy_stored. now apply js_or_truthy.
  - eexists. split; [reflexivity|].
    simpl. apply truthy_ToString. now apply js_or_truthy.
  - eexists. split; [reflexivity|]. apply stringify_nonempty.
Qed.

(** ** The cascade of the three selectors *)

Lemma In_JStr (j : string) (names : list string) :
  In (JStr j) (map (fun x => JStr x) names) -> In j names.
Proof.
  intros H. apply in_map_iff in H. destruct H as [x [Hx Hin]].
  now inversion Hx; subst.
Qed.

Lemma json_200_JArr_inj (a b : list json) :
  json_200 (JArr a) = json_200 (JArr b) -> a = b.
Proof. intros H. now inversion H. Qed.

Lemma api_filters_spec (db : database) :
  exists names : list string,
    api_filters db = json_200 (JArr (map (fun c => JStr c) names))
    /\ (forall c, In c names <->
                  exists r, In r (precincts_table db) /\ precincts.county r = Some c)
    /\ ascending names.
Proof.
  destruct (select_column_spec precincts.county (fun _ => true) (precincts_table db))
    as [names [Hsel [Hin Hasc]]].
  exists names. split; [|split; [|exact Hasc]].
  - unfold api_filters, select_counties. now rewrite Hsel, map_text_json_Some.
  - intros c. rewrite Hin. split; intros [r H]; exists r; tauto.
Qed.

Lemma api_jurisdictions_guard (db : database) (county : option string)
  (items : list json) :
  api_jurisdictions db county = json_200 (JArr items) -> items <> [] ->
  exists X, county = Some X /\ X <> "" /\ X <> "Select County".
Proof.
  unfold api_jurisdictions, missing, is_string.
  destruct county as [X|]; simpl.
  - destruct (String.eqb_spec X ""); simpl.
    + intros H Hne. apply json_200_JArr_inj in H. congruence.
    + destruct (String.eqb_spec X "Select County"); simpl.
      * intros H Hne. apply json_200_JArr_inj in H. congruence.
      * intros _ _. exists X. auto.
  - intros H Hne. apply json_200_JArr_inj in H. congruence.
Qed.

(** X3: every stored precinct can be reached through the cascade.  On
    a store filled by the loader no row has a NULL key, county,
    jurisdiction or district (lines 79-85 give each a truthy value or
    a default), so the [IS NOT NULL] tests of the listing queries
    (lines 123, 140, 161) hide no row: the county of every row is
    listed by the counties operation; its jurisdiction is listed for
    its county, and its district for its county and jurisdiction,
    whenever the values asked with are not empty and not placeholder
    texts. *)
Theorem every_stored_precinct_is_listed (csv : list csv_row)
  (features : list feature) (r : precincts.row) :
  let db := startup csv features in
  In r (precincts_table db) ->
  exists county jurisdiction district : string,
    precincts.pctkey r <> None
    /\ precincts.county r = Some county
    /\ precincts.jurisdiction r = Some jurisdiction
    /\ precincts.district r = Some district
    /\ (exists names,
          api_filters db = json_200 (JArr names) /\ In (JStr county) names)
    /\ (county <> "" -> county <> "Select County" ->
        exists names,
          api_jurisdictions db (Some county) = json_200 (JArr names)
          /\ In (JStr jurisdiction) names)
    /\ (county <> "" -> county <> "Select County" ->
        jurisdiction <> "" -> jurisdiction <> "Select Jurisdiction" ->
        exists names,
          api_districts db (Some county) (Some jurisdiction)
          = json_200 (JArr names)
          /\ In (JStr district) names).
Proof.
  intros db Hr.
  destruct (import_geojson_nonempty features r Hr)
    as [[key [Hkey _]] [[c [Hc _]] [[j [Hj _]] [[d [Hd _]] _]]]].
  exists c, j, d.
  split; [congruence|]. split; [exact Hc|]. split; [exact Hj|].
  split; [exact Hd|]. split; [|split].
  - destruct (api_filters_spec db) as [names [Hans [Hmem _]]].
    exists (map (fun x => JStr x) names). split; [exact Hans|].
    apply (in_map (fun x => JStr x)). apply Hmem. eauto.
  - intros Hne Hsent.
    destruct (api_jurisdictions_spec db c Hne Hsent) as [names [Hans [Hmem _]]].
    exists (map (fun x => JStr x) names). split; [exact Hans|].
    apply (in_map (fun x => JStr x)). apply Hmem. eauto.
  - intros Hne Hsent Hjne Hjsent.
    destruct (api_districts_members db c j Hne Hsent Hjne Hjsent)
      as [names [Hans [Hmem _]]].
    exists (map (fun x => JStr x) names). split; [exact Hans|].
    apply (in_map (fun x => JStr x)). apply Hmem. eauto.
Qed.

Lemma every_stored_precinct_is_listed_witness :
  exists names,
    api_districts (startup [] districts_9_10) (Some "Dallas") (Some "Irving")
    = json_200 (JArr names)
    /\ In (JStr "10") names.
Proof.
  destruct (every_stored_precinct_is_listed [] districts_9_10
              {| precincts.pctkey := Some "B";
                 precincts.county := Some "Dallas";
                 precincts.jurisdiction := Some "Irving";
                 precincts.district := Some "10";
                 precincts.geometry := Some (JSON.stringify (point 1 1)) |})
    as [c [j [d [_ [Hc [Hj [Hd [_ [_ H]]]]]]]]].
  - right. left. reflexivity.
  - inversion Hc; subst c. inversion Hj; subst j. inversion Hd; subst d.
    apply H; discriminate.
Defined.

(** X4: on a store filled by the loader the cascade does not dead-end.
    A county listed by the counties operation, other than the
    placeholder text, has at least one jurisdiction; a jurisdiction
    listed for a county, other than the placeholder text, has at least
    one district (lines 122-172 with the defaults of lines 80-82). *)
Theorem cascade_is_never_empty (csv : list csv_row) (features : list feature) :
  let db := startup csv features in
  (forall counties X,
     api_filters db = json_200 (JArr counties) ->
     In (JStr X) counties -> X <> "Select County" ->
     exists jurisdictions,
       api_jurisdictions db (Some X) = json_200 (JArr jurisdictions)
       /\ jurisdictions <> [])
  /\ (forall county jurisdictions Y,
        api_jurisdictions db county = json_200 (JArr jurisdictions) ->
        In (JStr Y) jurisdictions -> Y <> "Select Jurisdiction" ->
        exists districts,
          api_districts db county (Some Y) = json_200 (JArr districts)
          /\ districts <> []).
Proof.
  intros db. split.
  - intros counties X Hresp HX Hsent.
    destruct (api_filters_spec db) as [names [Hn [Hmem _]]].
    rewrite Hn in Hresp. apply json_200_JArr_inj in Hresp. subst counties.
    apply In_JStr, Hmem in HX. destruct HX as [r [Hr Hc]].
    destruct (import_geojson_nonempty features r Hr)
      as [_ [[c [Hc' Hcne]] [[j [Hj Hjne]] _]]].
    assert (c = X) by congruence. subst c.
    destruct (api_jurisdictions_spec db X Hcne Hsent) as [js [Hjs [Hjmem _]]].
    exists (map (fun x => JStr x) js). split; [exact Hjs|].
    assert (Hin : In j js) by (apply Hjmem; exists r; auto).
    destruct js; [contradiction|discriminate].
  - intros county jurisdictions Y Hresp HY Hsent.
    destruct (api_jurisdictions_guard db county jurisdictions Hresp)
      as [X [-> [HXne HXs]]];
      [intros ->; contradiction|].
    destruct (api_jurisdictions_spec db X HXne HXs) as [js [Hjs [Hjmem _]]].
    rewrite Hjs in Hresp. apply json_200_JArr_inj in Hresp. subst jurisdictions.
    apply In_JStr, Hjmem in HY. destruct HY as [r [Hr [Hc Hj]]].
    destruct (import_geojson_nonempty features r Hr)
      as [_ [_ [[j [Hj' Hjne]] [[d [Hd Hdne]] _]]]].
    assert (j = Y) by congruence. subst j.
    destruct (api_districts_members db X Y HXne HXs Hjne Hsent)
      as [ds [Hds [Hdmem _]]].
    exists (map (fun x => JStr x) ds). split; [exact Hds|].
    assert (Hin : In d ds) by (apply Hdmem; exists r; auto).
    destruct ds; [contradiction|discriminate].
Qed.

Lemma cascade_is_never_empty_witness :
  (exists jurisdictions,
     api_jurisdictions (startup [] districts_9_10) (Some "Dallas")
     = json_200 (JArr jurisdictions) /\ jurisdictions <> [])
  /\ (exists districts,
        api_districts (startup [] districts_9_10) (Some "Dallas") (Some "Irving")
        = json_200 (JArr districts) /\ districts <> []).
Proof.
  destruct (cascade_is_never_empty [] districts_9_10) as [H1 H2].
  split.
  - apply (H1 [JStr "Dallas"] "Dallas"); [reflexivity|now left|discriminate].
  - apply (H2 (Some "Dallas") [JStr "Irving"] "Irving");
      [reflexivity|now left|discriminate].
Defined.

(** ** The precincts operation with filters *)

Lemma clause_passes (p : option string) (placeholder : string)
  (column : precincts.row -> option string) (r : precincts.row) :
  forallb (fun c => sql_eq (fst c r) (Some (snd c)))
          (match active p placeholder with
           | Some v => [(column, v)]
           | None => []
           end) = true
  <-> passes p placeholder (column r).
Proof.
  unfold active, missing, is_string, passes.
  destruct p as [v|]; simpl; [|tauto].
  destruct (String.eqb_spec v ""); simpl; [tauto|].
  destruct (String.eqb_spec v placeholder); simpl; [tauto|].
  rewrite andb_true_r, sql_eq_Some. tauto.
Qed.

Lemma where_clause_selected (county jurisdiction district : option string)
  (r : precincts.row) :
  forallb (fun c => sql_eq (fst c r) (Some (snd c)))
          (where_clause county jurisdiction district) = true
  <-> selected county jurisdiction district r.
Proof.
  unfold where_clause, selected.
  rewrite !forallb_app, !andb_true_iff, !clause_passes. tauto.
Qed.


Lemma import_geojson_keys (features : list feature) :
  NoDup (map precincts.pctkey (import_geojson features)).
Proof.
  assert (H : primary_key (import_geojson features)).
  { apply forEach_primary_key. split; constructor. }
  apply H.
Qed.



Lemma map_features_filter (keep : precincts.row -> bool) (rows : list precincts.row)
  (big : list json) :
  map_features rows = Some big ->
  exists small, map_features (filter keep rows) = Some small /\ incl small big.
Proof.
  revert big. induction rows as [|r rows IH]; simpl; intros big Hbig.
  - exists []. split; [reflexivity|]. intros x [].
  - destruct (parse_geometry (precincts.geometry r)) as [g|] eqn:Hg; [|discriminate].
    destruct (map_features rows) as [fs|]; [|discriminate].
    inversion Hbig; subst big.
    destruct (IH fs eq_refl) as [small [Hsmall Hincl]].
    destruct (keep r); simpl.
    + rewrite Hg, Hsmall. eexists. split; [reflexivity|].
      intros x [<- | Hx]; [now left|right; now apply Hincl].
    + exists small. split; [exact Hsmall|]. now apply incl_tl.
Qed.

Lemma filter_narrow {A : Type} (f g : A -> bool) (l : list A) :
  (forall x, f x = true -> g x = true) ->
  filter f l = filter f (filter g l).
Proof.
  intros H. induction l as [|x l IH]; simpl; [reflexivity|].
  destruct (f x) eqn:Ef.
  - rewrite (H x Ef). simpl. now rewrite Ef, IH.
  - destruct (g x); simpl; [now rewrite Ef|exact IH].
Qed.

Lemma passes_wider (wide narrow : option string) (placeholder : string)
  (column : option string) :
  wider wide narrow ->
  passes narrow placeholder column -> passes wide placeholder column.
Proof. intros [-> | ->]; simpl; auto. Qed.

(** X6: narrowing.  When a precincts request (lines 175-216) is answered
    with status 200, so is every request that adds parameters to it,
    and each feature of the narrower answer is a feature of the wider
    one; on any store. *)
Theorem precincts_narrowing (db : database)
  (county jurisdiction district county' jurisdiction' district' : option string)
  (big : list json) :
  wider county' county -> wider jurisdiction' jurisdiction ->
  wider district' district ->
  api_precincts db county' jurisdiction' district' = json_200 (JArr big) ->
  exists small,
    api_precincts db county jurisdiction district = json_200 (JArr small)
    /\ incl small big.
Proof.
  intros Hc Hj Hd Hbig. unfold api_precincts, select_precincts in *.
  set (narrow := fun r : precincts.row =>
                   forallb (fun c => sql_eq (fst c r) (Some (snd c)))
                           (where_clause county jurisdiction district)).
  set (wide := fun r : precincts.row =>
                 forallb (fun c => sql_eq (fst c r) (Some (snd c)))
                         (where_clause county' jurisdiction' district')) in *.
  destruct (map_features (filter wide (precincts_table db))) as [fs|] eqn:Hfs;
    [|discriminate].
  apply json_200_JArr_inj in Hbig. subst fs.
  destruct (map_features_filter narrow _ _ Hfs) as [small [Hsmall Hincl]].
  exists small. split; [|exact Hincl].
  rewrite (filter_narrow narrow wide), Hsmall; [reflexivity|].
  intros r Hr. apply where_clause_selected. apply where_clause_selected in Hr.
  destruct Hr as [H1 [H2 H3]].
  repeat split; eapply passes_wider; eassumption.
Qed.

Lemma precincts_narrowing_witness :
  exists small,
    api_precincts (startup [] districts_9_10) (Some "Dallas") (Some "Irving")
                  (Some "10")
    = json_200 (JArr small)
    /\ incl small
            [feature_json {| precincts.pctkey := Some "A";
                             precincts.county := Some "Dallas";
                             precincts.jurisdiction := Some "Irving";
                             precincts.district := Some "9";
                             precincts.geometry := Some (JSON.stringify (point 0 0)) |}
                          (point 0 0);
             feature_json {| precincts.pctkey := Some "B";
                             precincts.county := Some "Dallas";
                             precincts.jurisdiction := Some "Irving";
                             precincts.district := Some "10";
                             precincts.geometry := Some (JSON.stringify (point 1 1)) |}
                          (point 1 1)].
Proof.
  apply (precincts_narrowing (startup [] districts_9_10)
           (Some "Dallas") (Some "Irving") (Some "10")
           (Some "Dallas") None None).
  - right. reflexivity.
  - left. reflexivity.
  - left. reflexivity.
  - reflexivity.
Defined.

(** ** Results of a precinct *)

Lemma filter_map_commute {A B : Type} (f : B -> bool) (g : A -> B) (l : list A) :
  filter f (map g l) = map g (filter (fun x => f (g x)) l).
Proof.
  induction l as [|x l IH]; simpl; [reflexivity|].
  destruct (f (g x)); simpl; now rewrite IH.
Qed.

Lemma import_csv_counting_spec (rows : list csv_row) :
  forall st,
    fold_left on_data_counting rows st
    = (fold_left on_data rows (fst st), (snd st + List.length rows)%nat).
Proof.
  induction rows as [|row rows IH]; intros [t n]; simpl.
  - now rewrite Nat.add_0_r.
  - rewrite IH. simpl. f_equal. lia.
Qed.

Lemma safe_integer_int64 (z : Z) : safe_integer z = true -> int64 z = true.
Proof.
  unfold safe_integer, int64, max_safe_integer. intros H.
  apply andb_true_iff in H. destruct H as [H1 H2].
  apply Z.leb_le in H1, H2. apply andb_true_iff. split; apply Z.leb_le; lia.
Qed.

Lemma plain_votes_answer (row : csv_row) :
  plain_votes row = true ->
  result_json (insert_result (results_args row)) = answer_of row.
Proof.
  unfold plain_votes, answer_of, result_json. intros Hplain.
  cbn [insert_result results_args nth results.pctkey results.office
       results.candidate results.votes results.party].
  rewrite !text_field. unfold field.
  destruct (get "votes" row) as [s|]; [|reflexivity].
  cbn [option_map bind_parameter integer_affinity].
  destruct (integer_literal s) as [z|] eqn:E.
  - now rewrite (safe_integer_int64 z Hplain).
  - reflexivity.
Qed.

(** X7: the results loader (lines 42-57) drops, merges and deduplicates
    nothing: [resultsCount] and the number of stored rows are both the
    number of CSV records, and the results operation (lines 219-229)
    answers for a key with one object per record carrying that key.
    When the vote counts of those records are plain (missing, without
    any digit, or an integer literal with a safe value), the objects
    are those of the records: the cells as strings, the votes as a
    number, the party from [party_simplified]. *)
Theorem results_follow_csv (csv : list csv_row) (features : list feature)
  (K : string) :
  import_csv_counting csv = (import_csv csv, List.length csv)
  /\ List.length (results_table (startup csv features)) = List.length csv
  /\ exists out,
       api_results (startup csv features) (Some K) = json_200 (JArr out)
       /\ List.length out = List.length (filter (record_of K) csv)
       /\ ((forall row, In row csv -> record_of K row = true ->
                        plain_votes row = true) ->
           Permutation out (map answer_of (filter (record_of K) csv))).
Proof.
  split; [|split].
  - unfold import_csv_counting. now rewrite import_csv_counting_spec.
  - cbn [startup results_table]. now rewrite import_csv_map, length_map.
  - exists (map result_json
                 (filter (fun r => sql_eq (results.pctkey r) (Some K))
                         (import_csv csv))).
    split; [reflexivity|].
    rewrite import_csv_map, filter_map_commute, map_map.
    assert (E : filter (fun row => sql_eq (results.pctkey
                                            (insert_result (results_args row)))
                                         (Some K)) csv
                = filter (record_of K) csv).
    { apply filter_ext. intros row. simpl. rewrite text_field.
      unfold record_of. now destruct (get "pctkey" row). }
    rewrite E. split; [now rewrite length_map|].
    intros Hplain.
    rewrite (map_ext_in _ answer_of); [reflexivity|].
    intros row Hrow. apply filter_In in Hrow. destruct Hrow as [Hin Hk].
    apply plain_votes_answer. now apply Hplain.
Qed.

Lemma results_follow_csv_witness :
  exists out,
    api_results (startup csv_party_only two_triangles) (Some "P1")
    = json_200 (JArr out)
    /\ Permutation out
         [JObj [("pctkey", JStr "P1"); ("office", JStr "Mayor");
                ("candidate", JStr "A"); ("votes", JNum 10); ("party", JNull)];
          JObj [("pctkey", JStr "P1"); ("office", JStr "Mayor");
                ("candidate", JStr "B"); ("votes", JNum 7); ("party", JNull)]].
Proof.
  destruct (results_follow_csv csv_party_only two_triangles "P1")
    as [_ [_ [out [Hout [_ Hperm]]]]].
  exists out. split; [exact Hout|].
  apply Hperm. intros row [<- | [<- | []]] _; reflexivity.
Defined.

(** ** The loader's counter against the table *)

Lemma forEach_counting_spec (features : list feature) :
  forall index t n,
    forEach_counting index features t n
    = (forEach index features t, (n + List.length (attempted index features))%nat).
Proof.
  induction features as [|feat rest IH]; simpl; intros index t n.
  - now rewrite Nat.add_0_r.
  - destruct (properties feat) as [props|]; simpl.
    + rewrite IH. f_equal. lia.
    + now rewrite Nat.add_0_r.
Qed.

Lemma sql_eq_true (a b : option string) : sql_eq a b = true -> a = b.
Proof.
  destruct a, b; simpl; intros H; try discriminate.
  apply String.eqb_eq in H. now subst.
Qed.

Lemma stmt_run_keys (a : precinct_args) (t : list precincts.row)
  (x : option string) :
  In x (map precincts.pctkey (fst (stmt_run a t)))
  <-> In x (map precincts.pctkey t) \/ x = precincts.pctkey (precinct_row a).
Proof.
  split.
  - intros H. apply in_map_iff in H. destruct H as [r [<- Hr]].
    apply stmt_run_rows in Hr. destruct Hr as [Hr | ->]; [|now right].
    left. now apply in_map.
  - intros [H | ->].
    + apply in_map_iff in H. destruct H as [r [<- Hr]].
      apply in_map. now apply stmt_run_incl.
    + unfold stmt_run.
      destruct (existsb _ t) eqn:E; simpl.
      * apply existsb_exists in E. destruct E as [old [Hin Heq]].
        apply in_map_iff. exists old. split; [|exact Hin].
        now apply sql_eq_true.
      * rewrite map_app. apply in_or_app. right. now left.
Qed.

Lemma forEach_keys (features : list feature) :
  forall index t x,
    In x (map precincts.pctkey (forEach index features t))
    <-> In x (map precincts.pctkey t)
        \/ In x (map precincts.pctkey (attempted index features)).
Proof.
  induction features as [|feat rest IH]; simpl; intros index t x; [tauto|].
  destruct (properties feat) as [props|]; simpl; [|tauto].
  rewrite IH, stmt_run_keys. intuition.
Qed.

Lemma attempted_length (features : list feature) :
  forall index, (List.length (attempted index features) <= List.length features)%nat.
Proof.
  induction features as [|feat rest IH]; simpl; intros index; [lia|].
  destruct (properties feat); simpl; [|lia]. specialize (IH (S index)). lia.
Qed.

Lemma attempted_all (features : list feature) :
  (forall feat, In feat features -> properties feat <> None) ->
  forall index, List.length (attempted index features) = List.length features.
Proof.
  induction features as [|feat rest IH]; simpl; intros Hall index; [reflexivity|].
  destruct (properties feat) eqn:E.
  - simpl. f_equal. apply IH. intros f Hf. apply Hall. now right.
  - exfalso. apply (Hall feat); auto.
Qed.

(** X8: the count the loader reports ([precinctsCount], lines 60 and
    91) is the number of features its loop went through, not the
    number of rows stored: the table holds one row per distinct key
    among them, so [SELECT COUNT( * )] (line 103) is at most
    [precinctsCount], which is at most the number of features, and
    equals it when every feature has a properties object. *)
Theorem reported_count_bounds_stored_rows (csv : list csv_row)
  (features : list feature) :
  let table := fst (forEach_counting 0 features [] 0) in
  let precinctsCount := snd (forEach_counting 0 features [] 0) in
  table = precincts_table (startup csv features)
  /\ precinctsCount = List.length (attempted 0 features)
  /\ select_count (startup csv features)
     = List.length (nodup text_eq_dec
                          (map precincts.pctkey (attempted 0 features)))
  /\ (select_count (startup csv features) <= precinctsCount)%nat
  /\ (precinctsCount <= List.length features)%nat
  /\ ((forall feat, In feat features -> properties feat <> None) ->
      precinctsCount = List.length features).
Proof.
  cbv zeta. rewrite forEach_counting_spec. cbn [fst snd Nat.add].
  assert (Hcount : select_count (startup csv features)
                   = List.length (nodup text_eq_dec
                                    (map precincts.pctkey (attempted 0 features)))).
  { unfold select_count. cbn [startup precincts_table].
    rewrite <- (length_map precincts.pctkey).
    apply Permutation_length, NoDup_Permutation.
    - apply import_geojson_keys.
    - apply NoDup_nodup.
    - intros x. unfold import_geojson. rewrite forEach_keys, nodup_In.
      simpl. tauto. }
  split; [reflexivity|]. split; [reflexivity|]. split; [exact Hcount|].
  split; [|split].
  - rewrite Hcount, <- (length_map precincts.pctkey (attempted 0 features)).
    apply NoDup_incl_length; [apply NoDup_nodup|].
    intros x Hx. now apply nodup_In in Hx.
  - apply attempted_length.
  - intros Hall. now apply attempted_all.
Qed.

Lemma reported_count_bounds_stored_rows_witness :
  snd (forEach_counting 0 twice_P1 [] 0) = 2%nat
  /\ select_count (startup [] twice_P1) = 1%nat.
Proof.
  destruct (reported_count_bounds_stored_rows [] twice_P1)
    as [_ [_ [Hsel [_ [_ Hall]]]]].
  split.
  - apply Hall. intros feat [<- | [<- | []]]; discriminate.
  - rewrite Hsel. reflexivity.
Defined.

(** ** Counts of GROUP BY *)

Section CountSums.
Context {A : Type} (dec : forall a b : A, {a = b} + {a <> b}).

Lemma hits_le (a : A) (ks : list A) :
  NoDup ks ->
  (list_sum (map (fun k => if dec a k then 1%nat else 0%nat) ks) <= 1)%nat.
Proof.
  induction 1 as [|k ks Hnotin Hks IH]; simpl; [lia|].
  destruct (dec a k) as [<- | Hne]; [|lia].
  assert (E : list_sum (map (fun k => if dec a k then 1%nat else 0%nat) ks) = 0%nat).
  { clear IH Hks. induction ks as [|x ks IHks]; simpl; [reflexivity|].
    destruct (dec a x) as [<- | _].
    - exfalso. apply Hnotin. now left.
    - apply IHks. intros Hin. apply Hnotin. now right. }
  lia.
Qed.

Lemma hits_eq (a : A) (ks : list A) :
  NoDup ks -> In a ks ->
  list_sum (map (fun k => if dec a k then 1%nat else 0%nat) ks) = 1%nat.
Proof.
  intros Hnd Hin. pose proof (hits_le a ks Hnd) as Hle.
  assert (1 <= list_sum (map (fun k => if dec a k then 1%nat else 0%nat) ks))%nat;
    [|lia].
  clear Hle Hnd. induction ks as [|k ks IH]; simpl; [contradiction|].
  destruct Hin as [-> | Hin].
  - destruct (dec a a); [lia|congruence].
  - specialize (IH Hin). lia.
Qed.

Lemma count_sum_split (a : A) (l ks : list A) :
  list_sum (map (count_occ dec (a :: l)) ks)
  = (list_sum (map (fun k => if dec a k then 1%nat else 0%nat) ks)
     + list_sum (map (count_occ dec l) ks))%nat.
Proof.
  induction ks as [|k ks IH]; [reflexivity|].
  cbn [map]. unfold list_sum in *. cbn [fold_right]. rewrite IH.
  cbn [count_occ]. destruct (dec a k); lia.
Qed.

Lemma count_sum_nil (ks : list A) :
  list_sum (map (count_occ dec []) ks) = 0%nat.
Proof. induction ks as [|k ks IH]; simpl; [reflexivity|exact IH]. Qed.

Lemma count_sum_le (l ks : list A) :
  NoDup ks -> (list_sum (map (count_occ dec l) ks) <= List.length l)%nat.
Proof.
  intros Hnd. induction l as [|a l IH].
  - rewrite count_sum_nil. simpl. lia.
  - rewrite count_sum_split. pose proof (hits_le a ks Hnd). simpl. lia.
Qed.

Lemma count_sum_eq (l ks : list A) :
  NoDup ks -> (forall x, In x l -> In x ks) ->
  list_sum (map (count_occ dec l) ks) = List.length l.
Proof.
  intros Hnd. induction l as [|a l IH]; intros Hall.
  - apply count_sum_nil.
  - rewrite count_sum_split, hits_eq, IH; auto.
    + intros x Hx. apply Hall. now right.
    + apply Hall. now left.
Qed.
End CountSums.

(** X9: the two verification queries the loader runs after the import
    (lines 103-112) agree: the per-county counts are over pairwise
    distinct counties, each is positive, and they add up to the total
    of [SELECT COUNT( * )]. *)
Theorem county_counts_add_up (db : database) :
  NoDup (map fst (select_county_counts db))
  /\ Forall (fun g => (0 < snd g)%nat
                      /\ exists r, In r (precincts_table db)
                                   /\ precincts.county r = fst g)
            (select_county_counts db)
  /\ list_sum (map snd (select_county_counts db)) = select_count db.
Proof.
  unfold select_county_counts, select_count.
  set (counties := map precincts.county (precincts_table db)).
  assert (Hnd : NoDup (order_by text_leb (nodup text_eq_dec counties))).
  { apply order_by_NoDup, NoDup_nodup. }
  split; [|split].
  - rewrite map_map. simpl. now rewrite map_id.
  - apply Forall_forall. intros g Hg. apply in_map_iff in Hg.
    destruct Hg as [c [<- Hc]]. simpl.
    apply (proj1 (order_by_In text_leb _ _)) in Hc. apply nodup_In in Hc.
    split; [now apply count_occ_In|].
    apply in_map_iff in Hc. destruct Hc as [r [Hr Hin]]. eauto.
  - rewrite map_map. simpl.
    rewrite (count_sum_eq text_eq_dec counties); [apply length_map|exact Hnd|].
    intros x Hx. apply (order_by_In text_leb). now apply nodup_In.
Qed.

(** X10: in the debug summary (lines 232-243) the groups of
    [sampleData] are pairwise distinct triples and their counts add up
    to at most the number of precinct rows; when the table has at most
    20 distinct triples every group is listed, the counts add up to
    exactly the number of rows, and [precinctCount] is the number of
    distinct triples, which is the number of precincts only when no two
    rows share a triple. *)
Theorem debug_counts (db : database) :
  exists rows : list (group_key * nat),
    select_debug db = Rows rows
    /\ api_debug db
       = json_200
           (JObj [("precinctCount", JNum (Z.of_nat (List.length rows)));
                  ("sampleData", JArr (map group_json rows));
                  ("database", JStr "./db/database.sqlite")])
    /\ NoDup (map fst rows)
    /\ (list_sum (map snd rows) <= List.length (precincts_table db))%nat
    /\ ((List.length (nodup key_eq_dec (map key_of (precincts_table db))) <= 20)%nat ->
        list_sum (map snd rows) = List.length (precincts_table db)
        /\ List.length rows
           = List.length (nodup key_eq_dec (map key_of (precincts_table db)))
        /\ forall r, In r (precincts_table db) -> In (key_of r) (map fst rows)).
Proof.
  exists (firstn 20 (group_by (precincts_table db))).
  set (keys := map key_of (precincts_table db)).
  set (sorted := order_by key_leb (nodup key_eq_dec keys)).
  assert (Hrows : firstn 20 (group_by (precincts_table db))
                  = map (fun k => (k, count_occ key_eq_dec keys k))
                        (firstn 20 sorted)).
  { unfold group_by. fold keys. fold sorted. apply firstn_map. }
  assert (Hfst : forall l : list group_key,
             map fst (map (fun k => (k, count_occ key_eq_dec keys k)) l) = l).
  { intros l. rewrite map_map. simpl. apply map_id. }
  assert (Hsnd : forall l : list group_key,
             map snd (map (fun k => (k, count_occ key_eq_dec keys k)) l)
             = map (count_occ key_eq_dec keys) l).
  { intros l. rewrite map_map. reflexivity. }
  assert (Hnd : NoDup sorted).
  { apply order_by_NoDup, NoDup_nodup. }
  assert (Hlen : List.length (precincts_table db) = List.length keys).
  { unfold keys. now rewrite length_map. }
  split; [reflexivity|]. split; [reflexivity|].
  rewrite Hrows, Hfst, Hsnd, Hlen.
  split; [|split].
  - now apply NoDup_firstn.
  - apply count_sum_le. now apply NoDup_firstn.
  - intros Hsmall.
    assert (Hall : firstn 20 sorted = sorted).
    { apply firstn_all2. unfold sorted. now rewrite order_by_length. }
    rewrite Hall. split; [|split].
    + apply count_sum_eq; [exact Hnd|].
      intros x Hx. apply (order_by_In key_leb). now apply nodup_In.
    + rewrite length_map. apply order_by_length.
    + intros r Hr. apply (order_by_In key_leb). apply nodup_In.
      now apply in_map.
Qed.

Lemma debug_counts_witness :
  exists rows : list (group_key * nat),
    select_debug (startup [] districts_9_10) = Rows rows
    /\ list_sum (map snd rows) = 2%nat
    /\ List.length rows = 2%nat.
Proof.
  destruct (debug_counts (startup [] districts_9_10))
    as [rows [Hsel [_ [_ [_ Hsmall]]]]].
  exists rows. split; [exact Hsel|].
  destruct Hsmall as [Hsum [Hlen _]].
  - vm_compute. lia.
  - split; [exact Hsum|]. rewrite Hlen. reflexivity.
Defined.

(** ** Synthesized keys *)

Lemma decimal_injective (a b : Z) : decimal a = decimal b -> a = b.
Proof.
  intros H. pose proof (integer_literal_decimal a) as Ha.
  rewrite H, integer_literal_decimal in Ha. congruence.
Qed.

Lemma forEach_synthesized (features : list feature) :
  (forall feat, In feat features ->
     exists props, properties feat = Some props
                   /\ truthy (get "pctkey" props) = false) ->
  forall index t,
    map precincts.pctkey t
    = map (fun k => Some ("precinct_" ++ decimal (Z.of_nat k))%string) (seq 0 index) ->
    map precincts.pctkey (forEach index features t)
    = map (fun k => Some ("precinct_" ++ decimal (Z.of_nat k))%string)
          (seq 0 (index + List.length features)).
Proof.
  induction features as [|feat rest IH]; intros Hall index t Ht.
  - simpl. now rewrite Nat.add_0_r.
  - destruct (Hall feat (or_introl eq_refl)) as [props [Hp Hfalsy]].
    simpl. rewrite Hp.
    assert (Hkey : precincts.pctkey
                     (precinct_row (map_feature index props (geometry feat)))
                   = Some ("precinct_" ++ decimal (Z.of_nat index))%string).
    { simpl. unfold js_or at 1. now rewrite Hfalsy. }
    rewrite stmt_run_fresh.
    + replace (index + S (List.length rest))%nat
        with (S index + List.length rest)%nat by lia.
      apply IH; [intros f Hf; apply Hall; now right|].
      cbn [fst]. rewrite map_app, Ht, seq_S, map_app. cbn [map Nat.add].
      now rewrite Hkey.
    + intros old Hold Heq. rewrite Hkey in Heq.
      apply (in_map precincts.pctkey) in Hold. rewrite Ht, Heq in Hold.
      apply in_map_iff in Hold. destruct Hold as [k [Hk Hin]].
      inversion Hk as [E]. apply decimal_injective in E.
      apply Nat2Z.inj in E. subst k.
      apply in_seq in Hin. lia.
Qed.

(** X11: synthesized keys never collide with one another (line 79).
    When every feature has a properties object without a truthy
    [pctkey], every feature is stored: the table has one row per
    feature, in input order, keyed precinct_0, precinct_1, ... *)
Theorem synthesized_keys_are_distinct (features : list feature) :
  (forall feat, In feat features ->
     exists props, properties feat = Some props
                   /\ truthy (get "pctkey" props) = false) ->
  map precincts.pctkey (import_geojson features)
  = map (fun k => Some ("precinct_" ++ decimal (Z.of_nat k))%string)
        (seq 0 (List.length features))
  /\ List.length (import_geojson features) = List.length features.
Proof.
  intros Hall.
  assert (H : map precincts.pctkey (import_geojson features)
              = map (fun k => Some ("precinct_" ++ decimal (Z.of_nat k))%string)
                    (seq 0 (List.length features))).
  { apply (forEach_synthesized features Hall 0 []). reflexivity. }
  split; [exact H|].
  rewrite <- (length_map precincts.pctkey), H, length_map. apply length_seq.
Qed.

Lemma synthesized_keys_are_distinct_witness :
  let features :=
    [ {| properties := Some [("county", PStr "Dallas")]; geometry := JNull |};
      {| properties := Some [("county", PStr "Dallas"); ("pctkey", PStr "")];
         geometry := JNull |};
      {| properties := Some []; geometry := triangle |} ] in
  map precincts.pctkey (import_geojson features)
  = [Some "precinct_0"; Some "precinct_1"; Some "precinct_2"]
  /\ List.length (import_geojson features) = 3%nat.
Proof.
  cbv zeta. apply synthesized_keys_are_distinct.
  intros feat [<- | [<- | [<- | []]]]; eexists; split; reflexivity.
Defined.

(** ** A feature without properties ends the import *)

Lemma forEach_stops (before after : list feature) (bad : feature) :
  properties bad = None ->
  forall index t n,
    forEach_counting index (before ++ bad :: after) t n
    = forEach_counting index before t n.
Proof.
  intros Hbad. induction before as [|feat rest IH]; simpl; intros index t n.
  - now rewrite Hbad.
  - destruct (properties feat); [apply IH|reflexivity].
Qed.

(** X12: a feature whose [properties] is [null] ends the import (the
    [try] of lines 61-117 encloses the whole loop): the table and
    [precinctsCount] are those of the features before it, and no
    feature after it is stored, whatever it holds. *)
Theorem null_properties_end_the_import (before after : list feature)
  (bad : feature) :
  properties bad = None ->
  import_geojson (before ++ bad :: after) = import_geojson before
  /\ snd (forEach_counting 0 (before ++ bad :: after) [] 0)
     = snd (forEach_counting 0 before [] 0)
  /\ (List.length (import_geojson (before ++ bad :: after))
      <= List.length before)%nat.
Proof.
  intros Hbad.
  pose proof (forEach_stops before after bad Hbad 0%nat [] 0%nat) as H.
  rewrite !forEach_counting_spec in H. inversion H as [[Htable Hcount]].
  assert (E : import_geojson (before ++ bad :: after) = import_geojson before)
    by exact Htable.
  split; [exact E|]. split.
  - now rewrite !forEach_counting_spec, Hcount.
  - rewrite E. rewrite <- (length_map precincts.pctkey).
    transitivity (List.length (map precincts.pctkey (attempted 0 before))).
    + apply NoDup_incl_length; [apply import_geojson_keys|].
      intros x Hx. unfold import_geojson in Hx. apply forEach_keys in Hx.
      destruct Hx as [[] | Hx]. exact Hx.
    + rewrite length_map. apply attempted_length.
Qed.

Lemma null_properties_end_the_import_witness :
  import_geojson (districts_9_10
                    ++ {| properties := None; geometry := JNull |} :: two_triangles)
  = import_geojson districts_9_10.
Proof.
  apply (null_properties_end_the_import districts_9_10 two_triangles
           {| properties := None; geometry := JNull |}).
  reflexivity.
Defined.

(** ** The client: the query of [updateMap] *)

(** X13: leaving an empty selection out of the query, as [updateMap]
    does (main.js, lines 124-127), changes no answer: the precincts
    operation reads the query built from the three selectors exactly
    as it would read the three values themselves, an empty value being
    no filter on the server either (lines 181-192). *)
Theorem updateMap_query_is_equivalent (db : database)
  (county jurisdiction district : string) :
  let params := updateMap_params county jurisdiction district in
  where_clause (get "county" params) (get "jurisdiction" params)
               (get "district" params)
  = where_clause (Some county) (Some jurisdiction) (Some district)
  /\ api_precincts db (get "county" params) (get "jurisdiction" params)
                   (get "district" params)
     = api_precincts db (Some county) (Some jurisdiction) (Some district).
Proof.
  cbv zeta.
  assert (H : where_clause
                (get "county" (updateMap_params county jurisdiction district))
                (get "jurisdiction" (updateMap_params county jurisdiction district))
                (get "district" (updateMap_params county jurisdiction district))
              = where_clause (Some county) (Some jurisdiction) (Some district)).
  { unfold updateMap_params, params_append.
    destruct (String.eqb_spec county ""); destruct (String.eqb_spec jurisdiction "");
      destruct (String.eqb_spec district ""); subst; reflexivity. }
  split; [exact H|]. unfold api_precincts. now rewrite H.
Qed.

(** ** The client: results grouped by office *)

Section ObjectFacts.
Context {A : Type}.

Lemma get_set_same (k : string) (v : A) (obj : object A) :
  get k (set k v obj) = Some v.
Proof.
  induction obj as [|[k' w] obj IH]; simpl.
  - now rewrite String.eqb_refl.
  - destruct (String.eqb_spec k' k); simpl.
    + subst. now rewrite String.eqb_refl.
    + destruct (String.eqb_spec k' k); [contradiction|exact IH].
Qed.

Lemma get_set_other (k k' : string) (v : A) (obj : object A) :
  k <> k' -> get k' (set k v obj) = get k' obj.
Proof.
  intros Hne. induction obj as [|[x w] obj IH]; simpl.
  - destruct (String.eqb_spec k k'); [contradiction|reflexivity].
  - destruct (String.eqb_spec x k); simpl.
    + subst. destruct (String.eqb_spec k k'); [contradiction|reflexivity].
    + destruct (String.eqb_spec x k'); [reflexivity|exact IH].
Qed.

Lemma get_In (k : string) (obj : object A) :
  In k (map fst obj) <-> get k obj <> None.
Proof.
  induction obj as [|[x w] obj IH]; simpl; [tauto|].
  destruct (String.eqb_spec x k); split; intros H; auto; try discriminate.
  - destruct H as [H | H]; [contradiction|now apply IH].
  - right. now apply IH.
Qed.

Lemma set_names (k : string) (v : A) (obj : object A) :
  map fst (set k v obj)
  = match get k obj with
    | Some _ => map fst obj
    | None => map fst obj ++ [k]
    end.
Proof.
  induction obj as [|[x w] obj IH]; simpl; [reflexivity|].
  destruct (String.eqb_spec x k); simpl; [reflexivity|].
  rewrite IH. now destruct (get k obj).
Qed.

Lemma set_NoDup (k : string) (v : A) (obj : object A) :
  NoDup (map fst obj) -> NoDup (map fst (set k v obj)).
Proof.
  intros H. rewrite set_names. destruct (get k obj) eqn:E; [exact H|].
  apply NoDup_app; [exact H|repeat constructor; auto|].
  intros x Hx [<- | []]. apply get_In in Hx. contradiction.
Qed.

Lemma get_NoDup (obj : object A) :
  NoDup (map fst obj) ->
  map (fun k => get k obj) (map fst obj) = map (fun kv => Some (snd kv)) obj.
Proof.
  induction obj as [|[x w] obj IH]; simpl; intros H; [reflexivity|].
  inversion H as [|? ? Hnotin Hrest]; subst.
  rewrite String.eqb_refl. f_equal.
  rewrite <- (IH Hrest). apply map_ext_in. intros k Hk.
  destruct (String.eqb_spec x k); [|reflexivity]. subst. contradiction.
Qed.
End ObjectFacts.

Lemma concat_set_some (k : string) (l : list result) (r : result)
  (obj : object (list result)) :
  get k obj = Some l ->
  Permutation (List.concat (map snd (set k (l ++ [r]) obj)))
              (List.concat (map snd obj) ++ [r]).
Proof.
  induction obj as [|[x w] obj IH]; simpl; [discriminate|].
  destruct (String.eqb_spec x k); simpl.
  - intros H. inversion H; subst w.
    rewrite <- !List.app_assoc. apply Permutation_app_head.
    apply Permutation_app_comm.
  - intros H. rewrite <- List.app_assoc. apply Permutation_app_head. now apply IH.
Qed.

Lemma concat_set_none (k : string) (r : result) (obj : object (list result)) :
  get k obj = None ->
  List.concat (map snd (set k [r] obj)) = List.concat (map snd obj) ++ [r].
Proof.
  induction obj as [|[x w] obj IH]; simpl; [reflexivity|].
  destruct (String.eqb_spec x k); simpl; [discriminate|].
  intros H. now rewrite IH, List.app_assoc.
Qed.

(** What the grouping loop makes of a given object. *)
Lemma group_results_spec (results : list result) :
  (forall r, In r results -> inherited (office_key r) = false) ->
  forall acc,
  exists g,
    group_results results acc = Some g
    /\ (forall k,
          get k g
          = match get k acc with
            | Some l => Some (l ++ filter (fun r => office_key r =? k)%string results)
            | None =>
                match filter (fun r => office_key r =? k)%string results with
                | [] => None
                | fs => Some fs
                end
            end)
    /\ (NoDup (map fst acc) -> NoDup (map fst g))
    /\ Permutation (List.concat (map snd g)) (List.concat (map snd acc) ++ results).
Proof.
  induction results as [|r rest IH]; intros Hall acc.
  - exists acc. split; [reflexivity|]. split; [|split].
    + intros k. simpl. destruct (get k acc); [now rewrite List.app_nil_r|reflexivity].
    + auto.
    + now rewrite List.app_nil_r.
  - assert (Hrest : forall x, In x rest -> inherited (office_key x) = false)
      by (intros x Hx; apply Hall; now right).
    cbn [group_results].
    destruct (get (office_key r) acc) as [l|] eqn:Hget.
    + destruct (IH Hrest (set (office_key r) (l ++ [r]) acc))
        as [g [Hg [Hlook [Hnd Hperm]]]].
      exists g. split; [exact Hg|]. split; [|split].
      * intros k. rewrite Hlook. cbn [filter].
        destruct (String.eqb_spec (office_key r) k) as [<- | Hne].
        -- rewrite get_set_same, Hget, <- List.app_assoc. reflexivity.
        -- now rewrite (get_set_other _ _ _ _ Hne).
      * intros H. apply Hnd. now apply set_NoDup.
      * rewrite Hperm.
        rewrite (concat_set_some _ _ _ _ Hget), <- List.app_assoc. reflexivity.
    + rewrite (Hall r (or_introl eq_refl)).
      destruct (IH Hrest (set (office_key r) [r] acc))
        as [g [Hg [Hlook [Hnd Hperm]]]].
      exists g. split; [exact Hg|]. split; [|split].
      * intros k. rewrite Hlook. cbn [filter].
        destruct (String.eqb_spec (office_key r) k) as [<- | Hne].
        -- rewrite get_set_same, Hget. reflexivity.
        -- now rewrite (get_set_other _ _ _ _ Hne).
      * intros H. apply Hnd. now apply set_NoDup.
      * rewrite Hperm, (concat_set_none _ _ _ Hget), <- List.app_assoc.
        reflexivity.
Qed.

Lemma group_results_fails (results : list result) :
  (exists r, In r results /\ inherited (office_key r) = true) ->
  forall acc,
    (forall k, inherited k = true -> get k acc = None) ->
    group_results results acc = None.
Proof.
  induction results as [|r rest IH]; intros [bad [Hin Hbad]] acc Hacc.
  - contradiction.
  - cbn [group_results].
    destruct (inherited (office_key r)) eqn:Hr.
    + now rewrite (Hacc _ Hr).
    + assert (Hrest : exists x, In x rest /\ inherited (office_key x) = true).
      { destruct Hin as [-> | Hin]; [congruence|eauto]. }
      assert (Hkeep : forall v k, inherited k = true ->
                        get k (set (office_key r) v acc) = None).
      { intros v k Hk. rewrite get_set_other; [now apply Hacc|].
        intros E. congruence. }
      destruct (get (office_key r) acc); apply IH; auto.
Qed.

Lemma partition_perm {A : Type} (p : A -> bool) (l : list A) :
  Permutation (filter p l ++ filter (fun x => negb (p x)) l) l.
Proof.
  induction l as [|x l IH]; simpl; [constructor|].
  destruct (p x); simpl.
  - now constructor.
  - rewrite <- Permutation_middle. now constructor.
Qed.

Lemma array_index_decimal (k : string) (z : Z) :
  array_index k = Some z -> decimal z = k.
Proof.
  unfold array_index. destruct (integer_literal k) as [z'|]; [|discriminate].
  destruct ((0 <=? z')%Z && (z' <? 4294967295)%Z && (decimal z' =? k)%string) eqn:E;
    [|discriminate].
  intros H. inversion H; subst z'.
  apply andb_true_iff in E. destruct E as [_ E]. now apply String.eqb_eq.
Qed.

Lemma Object_keys_perm {A : Type} (obj : object A) :
  Permutation (Object_keys obj) (map fst obj).
Proof.
  unfold Object_keys. set (names := map fst obj).
  set (is_index := fun k => match array_index k with
                            | Some _ => true
                            | None => false
                            end).
  eapply Permutation_trans; [|apply (partition_perm is_index names)].
  apply Permutation_app.
  - eapply Permutation_trans;
      [apply Permutation_map, (order_by_perm Z.leb)|].
    replace (map decimal (flat_map (fun k => match array_index k with
                                             | Some z => [z]
                                             | None => []
                                             end) names))
      with (filter is_index names); [reflexivity|].
    induction names as [|k names IH]; [reflexivity|].
    cbn [filter flat_map]. unfold is_index at 1.
    destruct (array_index k) as [z|] eqn:E; [|exact IH].
    cbn [app map]. rewrite (array_index_decimal k z E). now f_equal.
  - apply Permutation_refl'. apply filter_ext. intros k. unfold is_index.
    now destruct (array_index k).
Qed.

Lemma resultsByOffice_spec (results : list result) :
  (forall r, In r results -> inherited (office_key r) = false) ->
  exists groups,
    resultsByOffice results = Some groups
    /\ NoDup (map fst groups)
    /\ (forall k,
          get k groups
          = match filter (fun r => office_key r =? k)%string results with
            | [] => None
            | fs => Some fs
            end)
    /\ Permutation (List.concat (map snd groups)) results.
Proof.
  intros Hall.
  destruct (group_results_spec results Hall []) as [g [Hg [Hlook [Hnd Hperm]]]].
  exists g. split; [exact Hg|]. split; [apply Hnd; constructor|].
  split; [exact Hlook|exact Hperm].
Qed.

Lemma resultsByOffice_Some (results : list result) (groups : object (list result)) :
  resultsByOffice results = Some groups ->
  forall r, In r results -> inherited (office_key r) = false.
Proof.
  intros H r Hr. destruct (inherited (office_key r)) eqn:E; [|reflexivity].
  unfold resultsByOffice in H.
  rewrite (group_results_fails results) in H; [discriminate|eauto|reflexivity].
Qed.

(** X14: the grouping of [showElectionResults] (main.js, lines 246-252)
    loses and repeats nothing.  When no office is named like a member
    every object inherits, [resultsByOffice] has one entry per office
    name occurring in the results; the entry of a name holds exactly
    the results of that office, in the order received; and
    [Object.keys] lists every office once. *)
Theorem results_are_grouped_by_office (results : list result) :
  (forall r, In r results -> inherited (office_key r) = false) ->
  exists groups,
    resultsByOffice results = Some groups
    /\ NoDup (map fst groups)
    /\ (forall k,
          get k groups
          = match filter (fun r => office_key r =? k)%string results with
            | [] => None
            | fs => Some fs
            end)
    /\ Permutation (List.concat (map snd groups)) results
    /\ Permutation (Object_keys groups) (map fst groups).
Proof.
  intros Hall.
  destruct (resultsByOffice_spec results Hall) as [g [H1 [H2 [H3 H4]]]].
  exists g. repeat split; auto. apply Object_keys_perm.
Qed.

Lemma results_are_grouped_by_office_witness :
  exists groups,
    resultsByOffice
      [ [("office", PStr "Mayor"); ("candidate", PStr "A"); ("votes", PNum 10)];
        [("office", PStr "7"); ("candidate", PStr "C"); ("votes", PNum 3)];
        [("office", PStr "Mayor"); ("candidate", PStr "B"); ("votes", PNum 20)] ]
    = Some groups
    /\ get "Mayor" groups
       = Some [ [("office", PStr "Mayor"); ("candidate", PStr "A"); ("votes", PNum 10)];
                [("office", PStr "Mayor"); ("candidate", PStr "B"); ("votes", PNum 20)] ]
    /\ get "Sheriff" groups = None.
Proof.
  destruct (results_are_grouped_by_office
              [ [("office", PStr "Mayor"); ("candidate", PStr "A"); ("votes", PNum 10)];
                [("office", PStr "7"); ("candidate", PStr "C"); ("votes", PNum 3)];
                [("office", PStr "Mayor"); ("candidate", PStr "B"); ("votes", PNum 20)] ])
    as [groups [Hg [_ [Hlook _]]]].
  - intros r [<- | [<- | [<- | []]]]; reflexivity.
  - exists groups. split; [exact Hg|]. split; rewrite Hlook; reflexivity.
Defined.

(** X15: an office named like a member every object inherits
    ([constructor], [toString], ...) makes the grouping throw (line
    251: the inherited member is truthy and has no [push]), so no
    popup of results is built for that precinct. *)
Theorem inherited_office_name_throws (results : list result) :
  (exists r, In r results /\ inherited (office_key r) = true) ->
  resultsByOffice results = None.
Proof.
  intros H. apply group_results_fails; [exact H|reflexivity].
Qed.

Lemma inherited_office_name_throws_witness :
  resultsByOffice
    [ [("office", PStr "Mayor"); ("votes", PNum 10)];
      [("office", PStr "constructor"); ("votes", PNum 3)] ]
  = None.
Proof.
  apply inherited_office_name_throws.
  exists [("office", PStr "constructor"); ("votes", PNum 3)].
  split; [right; left; reflexivity|reflexivity].
Defined.

(** ** The client: totals *)

Lemma digit_not_blank (c : ascii) :
  is_digit c = true ->
  is_blank c = false /\ (c =? "-")%char = false /\ (c =? "+")%char = false
  /\ (c =? "x")%char = false /\ (c =? "X")%char = false.
Proof.
  destruct c as [[] [] [] [] [] [] [] []]; intros H;
    try discriminate H; repeat split.
Qed.

Lemma uint_chars_all_digits (u : Decimal.uint) :
  Forall (fun c => is_digit c = true) (uint_chars u).
Proof. induction u; simpl; constructor; auto. Qed.

Lemma decimal_prefix_to_uint (n : N) :
  decimal_prefix (uint_chars (N.to_uint n)) = Some n.
Proof.
  unfold decimal_prefix. rewrite read_all_digits.
  pose proof (to_uint_not_Nil n) as Hnil.
  destruct (N.to_uint n) eqn:E; try contradiction;
    rewrite <- E, DecimalN.Unsigned.of_to; reflexivity.
Qed.

Lemma magnitude_of_digits (s : list ascii) :
  Forall (fun c => is_digit c = true) s ->
  match s with
  | z :: x :: r =>
      if (z =? "0")%char && ((x =? "x")%char || (x =? "X")%char)
      then read_hex r None
      else decimal_prefix s
  | _ => decimal_prefix s
  end = decimal_prefix s.
Proof.
  intros H. destruct s as [|z [|x r]]; try reflexivity.
  inversion H as [|? ? _ Hrest]; subst. inversion Hrest as [|? ? Hx _]; subst.
  apply digit_not_blank in Hx. destruct Hx as [_ [_ [_ [-> ->]]]].
  now rewrite andb_false_r.
Qed.

Lemma to_double_safe (z : Z) :
  (Z.abs z <= max_safe_integer)%Z -> to_double z = z.
Proof.
  intros H. unfold to_double.
  assert (Hlog : (Z.log2 (Z.abs z) - 52 <= 0)%Z).
  { destruct (Z.eq_dec (Z.abs z) 0) as [E|E].
    - rewrite E. simpl. lia.
    - assert (Hlt : (Z.log2 (Z.abs z) < 53)%Z).
      { apply Z.log2_lt_pow2; [lia|].
        unfold max_safe_integer in H. change (2 ^ 53)%Z with 9007199254740992%Z.
        lia. }
      lia. }
  apply Z.leb_le in Hlog. cbv zeta. now rewrite Hlog.
Qed.

(** [parseInt] of an integer is the number nearest to it. *)
Lemma parseInt_number (z : Z) : parseInt (Some (PNum z)) = Some (to_double z).
Proof.
  unfold parseInt. cbn [ToString]. unfold decimal, chars.
  rewrite list_ascii_of_string_of_list_ascii.
  destruct (decimal_chars_signed z) as [-> Hsigned].
  pose proof (uint_chars_all_digits (N.to_uint (Z.abs_N z))) as Hdigits.
  pose proof (magnitude_of_digits _ Hdigits) as Hmag.
  pose proof (decimal_prefix_to_uint (Z.abs_N z)) as Hpre.
  destruct (z <? 0)%Z.
  - cbn [app trim_start]. change (is_blank "-"%char) with false. cbv iota.
    change (("-"%char =? "-")%char) with true. cbv iota.
    rewrite Hmag, Hpre. simpl. f_equal. f_equal. exact Hsigned.
  - cbn [app].
    pose proof (uint_chars_nonempty (Z.abs_N z)) as Hne.
    destruct (uint_chars (N.to_uint (Z.abs_N z))) as [|c r] eqn:E;
      [contradiction|].
    inversion Hdigits as [|? ? Hc _]; subst.
    apply digit_not_blank in Hc. destruct Hc as [Hb [Hm [Hp _]]].
    cbn [trim_start]. rewrite Hb, Hm, Hp. cbv iota.
    rewrite Hmag, Hpre. simpl. f_equal. f_equal. exact Hsigned.
Qed.

Lemma sumZ_app (a b : list Z) : sumZ (a ++ b) = (sumZ a + sumZ b)%Z.
Proof. induction a as [|x a IH]; simpl; [reflexivity|]. rewrite IH. lia. Qed.

Lemma sumZ_perm (a b : list Z) : Permutation a b -> sumZ a = sumZ b.
Proof. induction 1; simpl; lia. Qed.

Lemma sumZ_concat {A : Type} (f : A -> Z) (ls : list (list A)) :
  sumZ (map f (List.concat ls)) = sumZ (map (fun l => sumZ (map f l)) ls).
Proof.
  induction ls as [|l ls IH]; simpl; [reflexivity|].
  now rewrite map_app, sumZ_app, IH.
Qed.

Lemma sumZ_abs_nonneg {A : Type} (f : A -> Z) (l : list A) :
  (0 <= sumZ (map (fun x => Z.abs (f x)) l))%Z.
Proof. induction l as [|x l IH]; simpl; lia. Qed.

Lemma sumZ_abs_filter {A : Type} (f : A -> Z) (p : A -> bool) (l : list A) :
  (sumZ (map (fun x => Z.abs (f x)) (filter p l))
   <= sumZ (map (fun x => Z.abs (f x)) l))%Z.
Proof.
  induction l as [|x l IH]; simpl; [lia|].
  destruct (p x); simpl; lia.
Qed.

Lemma totalVotes_from (l : list result) :
  (forall r, In r l -> numeric_votes r = true) ->
  forall a,
    (Z.abs a + votes_size l <= max_safe_integer)%Z ->
    fold_left (fun sum r => js_add sum (parseInt (get "votes" r))) l (Some a)
    = Some (a + sumZ (map votes_of l))%Z.
Proof.
  unfold votes_size.
  induction l as [|r l IH]; simpl; intros Hall a Hsize.
  - f_equal. lia.
  - pose proof (Hall r (or_introl eq_refl)) as Hr.
    pose proof (sumZ_abs_nonneg votes_of l) as Hpos.
    unfold numeric_votes in Hr. unfold votes_of at 1 in Hsize.
    unfold votes_of at 1.
    destruct (get "votes" r) as [[| |z|]|]; try discriminate.
    rewrite parseInt_number, (to_double_safe z) by lia.
    cbn [js_add]. rewrite (to_double_safe (a + z)) by lia.
    rewrite IH by (auto; lia). f_equal. lia.
Qed.

Lemma totalVotes_numeric (l : list result) :
  (forall r, In r l -> numeric_votes r = true) ->
  (votes_size l <= max_safe_integer)%Z ->
  totalVotes l = Some (sumZ (map votes_of l)).
Proof.
  intros H Hsize. unfold totalVotes. rewrite totalVotes_from; auto.
Qed.

Lemma totalVotes_NaN (l : list result) :
  forall sum,
    sum = None \/ (exists r, In r l /\ parseInt (get "votes" r) = None) ->
    fold_left (fun sum r => js_add sum (parseInt (get "votes" r))) l sum = None.
Proof.
  induction l as [|r l IH]; simpl; intros sum H.
  - destruct H as [-> | [r [[] _]]]. reflexivity.
  - apply IH. destruct H as [-> | [x [[<- | Hx] Hnan]]].
    + now left.
    + left. rewrite Hnan. now destruct sum.
    + right. eauto.
Qed.

Lemma office_totals_sum (results : list result) (groups : object (list result)) :
  resultsByOffice results = Some groups ->
  (forall r, In r results -> numeric_votes r = true) ->
  (votes_size results <= max_safe_integer)%Z ->
  exists totals : list Z,
    map snd (office_totals groups) = map Some totals
    /\ map fst (office_totals groups) = Object_keys groups
    /\ sumZ totals = sumZ (map votes_of results).
Proof.
  intros Hg Hnum Hsize.
  pose proof (resultsByOffice_Some results groups Hg) as Hok.
  destruct (resultsByOffice_spec results Hok) as [g [Hg' [Hnd [Hlook Hperm]]]].
  rewrite Hg in Hg'. inversion Hg'; subst g. clear Hg'.
  set (lookup := fun k => match get k groups with
                          | Some officeResults => officeResults
                          | None => []
                          end).
  exists (map (fun k => sumZ (map votes_of (lookup k))) (Object_keys groups)).
  split; [|split].
  - unfold office_totals. rewrite !map_map. apply map_ext_in.
    intros k _. cbn [snd]. fold (lookup k).
    assert (Ek : lookup k = filter (fun r => office_key r =? k)%string results).
    { unfold lookup. rewrite Hlook. now destruct (filter _ results). }
    rewrite Ek. apply totalVotes_numeric.
    + intros r Hr. apply filter_In in Hr. now apply Hnum.
    + eapply Z.le_trans; [apply sumZ_abs_filter|exact Hsize].
  - unfold office_totals. rewrite map_map. apply map_id.
  - rewrite (sumZ_perm _ (map (fun k => sumZ (map votes_of (lookup k)))
                              (map fst groups)))
      by (apply Permutation_map, Object_keys_perm).
    rewrite <- (sumZ_perm _ _ (Permutation_map votes_of Hperm)).
    rewrite sumZ_concat, !map_map. f_equal.
    assert (E : map (fun k => get k groups) (map fst groups)
                = map (fun kv => Some (snd kv)) groups) by now apply get_NoDup.
    rewrite map_map in E.
    apply map_ext_in. intros kv Hkv.
    apply (proj1 map_ext_in_iff E) in Hkv. cbv beta in Hkv.
    unfold lookup. now rewrite Hkv.
Qed.

(** X16: when every vote count received is an integer, the votes,
    added up without their signs, stay within the safe integers, and
    no office is a number beyond them, the total shown for an office (main.js, lines 258-260) is the sum of
    the votes of the results of that office, and the totals of all
    offices add up to the sum of all votes received: no vote is
    counted twice or left out. *)
Theorem office_totals_add_up (results : list result)
  (groups : object (list result)) :
  resultsByOffice results = Some groups ->
  (forall r, In r results -> numeric_votes r = true) ->
  (forall r, In r results -> plain_office r = true) ->
  (votes_size results <= max_safe_integer)%Z ->
  (forall office total,
     In (office, total) (office_totals groups) ->
     total = Some (sumZ (map votes_of
                             (filter (fun r => office_key r =? office)%string
                                     results))))
  /\ exists totals : list Z,
       map snd (office_totals groups) = map Some totals
       /\ map fst (office_totals groups) = Object_keys groups
       /\ sumZ totals = sumZ (map votes_of results).
Proof.
  intros Hg Hnum _ Hsize. split; [|now apply office_totals_sum].
  pose proof (resultsByOffice_Some results groups Hg) as Hok.
  destruct (resultsByOffice_spec results Hok) as [g [Hg' [_ [Hlook _]]]].
  rewrite Hg in Hg'. inversion Hg'; subst g. clear Hg'.
  intros office total Hin. unfold office_totals in Hin.
  apply in_map_iff in Hin. destruct Hin as [k [Hk _]].
  inversion Hk; subst office total. clear Hk.
  assert (E : match get k groups with
              | Some officeResults => officeResults
              | None => []
              end = filter (fun r => office_key r =? k)%string results).
  { rewrite Hlook. now destruct (filter _ results). }
  rewrite E. apply totalVotes_numeric.
  - intros r Hr. apply filter_In in Hr. now apply Hnum.
  - eapply Z.le_trans; [apply sumZ_abs_filter|exact Hsize].
Qed.

Lemma office_totals_add_up_witness :
  exists totals : list Z,
    map snd (office_totals
               [("Mayor", [ [("office", PStr "Mayor"); ("votes", PNum 10)];
                            [("office", PStr "Mayor"); ("votes", PNum 20)] ]);
                ("7", [ [("office", PStr "7"); ("votes", PNum 3)] ])])
    = map Some totals
    /\ sumZ totals = 33%Z.
Proof.
  destruct (office_totals_add_up
              [ [("office", PStr "Mayor"); ("votes", PNum 10)];
                [("office", PStr "7"); ("votes", PNum 3)];
                [("office", PStr "Mayor"); ("votes", PNum 20)] ]
              [("Mayor", [ [("office", PStr "Mayor"); ("votes", PNum 10)];
                           [("office", PStr "Mayor"); ("votes", PNum 20)] ]);
               ("7", [ [("office", PStr "7"); ("votes", PNum 3)] ])])
    as [_ [totals [H1 [_ H3]]]].
  - reflexivity.
  - intros r [<- | [<- | [<- | []]]]; reflexivity.
  - intros r [<- | [<- | [<- | []]]]; reflexivity.
  - vm_compute. discriminate.
  - exists totals. split; [exact H1|exact H3].
Defined.

(** X17: a single result of an office whose vote count does not start
    with a number (a null, a missing member, a text without leading
    digits) makes the total of that office NaN (line 260), and then
    the test [totalVotes > 0] of line 276 fails, so every percentage of
    the office is shown as 0.0. *)
Theorem one_bad_count_spoils_the_total (officeResults : list result) :
  (exists r, In r officeResults /\ parseInt (get "votes" r) = None) ->
  totalVotes officeResults = None
  /\ has_votes (totalVotes officeResults) = false.
Proof.
  intros H.
  assert (E : totalVotes officeResults = None).
  { unfold totalVotes. apply totalVotes_NaN. now right. }
  split; [exact E|now rewrite E].
Qed.

Lemma one_bad_count_spoils_the_total_witness :
  totalVotes [ [("office", PStr "Mayor"); ("votes", PNum 10)];
               [("office", PStr "Mayor"); ("votes", PNull)];
               [("office", PStr "Mayor"); ("votes", PNum 20)] ] = None
  /\ has_votes (totalVotes [ [("office", PStr "Mayor"); ("votes", PNum 10)];
                             [("office", PStr "Mayor"); ("votes", PNull)];
                             [("office", PStr "Mayor"); ("votes", PNum 20)] ])
     = false.
Proof.
  apply one_bad_count_spoils_the_total.
  exists [("office", PStr "Mayor"); ("votes", PNull)].
  split; [right; left; reflexivity|reflexivity].
Defined.

(** ** From the CSV to the totals of the popup *)

Lemma received_json (r : results.row) :
  result_json r = JObj (map (fun kv => (fst kv, JPrim (snd kv))) (received r)).
Proof.
  unfold result_json, received. cbn [map fst snd].
  destruct (results.pctkey r), (results.office r), (results.candidate r),
    (results.votes r), (results.party r); reflexivity.
Qed.

Lemma selected_results (csv : list csv_row) (features : list feature) (K : string) :
  filter (fun r => sql_eq (results.pctkey r) (Some K))
         (results_table (startup csv features))
  = map (fun row => insert_result (results_args row)) (filter (record_of K) csv).
Proof.
  cbn [startup results_table]. rewrite import_csv_map, filter_map_commute.
  f_equal. apply filter_ext. intros row. simpl. rewrite text_field.
  unfold record_of. now destruct (get "pctkey" row).
Qed.

Lemma received_office (row : csv_row) :
  office_key (received (insert_result (results_args row)))
  = match get "office" row with
    | Some s => s
    | None => "null"
    end.
Proof.
  unfold office_key, received. cbn [get String.eqb Ascii.eqb Bool.eqb].
  simpl. unfold field. now destruct (get "office" row).
Qed.

Lemma received_votes (row : csv_row) (s : string) (z : Z) :
  get "votes" row = Some s -> integer_literal s = Some z -> int64 z = true ->
  get "votes" (received (insert_result (results_args row))) = Some (PNum z).
Proof.
  intros Hs Hz Hr. unfold received. simpl. unfold field. rewrite Hs. simpl.
  now rewrite Hz, Hr.
Qed.

Lemma sumZ_abs_In {A : Type} (f : A -> Z) (l : list A) (x : A) :
  In x l -> (Z.abs (f x) <= sumZ (map (fun y => Z.abs (f y)) l))%Z.
Proof.
  induction l as [|y l IH]; simpl; intros H; [contradiction|].
  pose proof (sumZ_abs_nonneg f l).
  destruct H as [-> | H]; [lia|]. specialize (IH H). lia.
Qed.

(** X18: from the CSV to the popup.  When the vote counts of the
    records of a precinct are integer literals whose values, added up
    without their signs, stay within the safe integers, and no office
    is named like an inherited member, the results operation hands the
    client one object per record, the client groups them, and the
    totals it shows add up to the sum of the votes of those records
    (part_000, lines 45-52 and 219-229; main.js, lines 246-260). *)
Theorem popup_totals_follow_csv (csv : list csv_row) (features : list feature)
  (K : string) :
  (forall row, In row csv -> record_of K row = true ->
     exists s z, get "votes" row = Some s /\ integer_literal s = Some z) ->
  (csv_votes_size (filter (record_of K) csv) <= max_safe_integer)%Z ->
  (forall row s, In row csv -> record_of K row = true ->
     get "office" row = Some s -> inherited s = false) ->
  exists (rows : list results.row) (groups : object (list result))
         (totals : list Z),
    api_results (startup csv features) (Some K)
    = json_200
        (JArr (map (fun r => JObj (map (fun kv => (fst kv, JPrim (snd kv)))
                                       (received r)))
                   rows))
    /\ List.length rows = List.length (filter (record_of K) csv)
    /\ resultsByOffice (map received rows) = Some groups
    /\ map snd (office_totals groups) = map Some totals
    /\ sumZ totals = sumZ (map csv_votes (filter (record_of K) csv)).
Proof.
  intros Hvotes Hsize Hoffice.
  set (records := filter (record_of K) csv) in *.
  set (rows := map (fun row => insert_result (results_args row)) records).
  assert (Hrec : forall row, In row records -> In row csv /\ record_of K row = true).
  { intros row Hrow. apply filter_In in Hrow. exact Hrow. }
  assert (Hstored : forall row, In row records ->
            get "votes" (received (insert_result (results_args row)))
            = Some (PNum (csv_votes row))).
  { intros row Hrow. destruct (Hrec row Hrow) as [Hin Hk].
    destruct (Hvotes row Hin Hk) as [s [z [Hs Hz]]].
    assert (Ez : csv_votes row = z) by (unfold csv_votes; now rewrite Hs, Hz).
    rewrite Ez. apply (received_votes row s z Hs Hz).
    apply safe_integer_int64.
    pose proof (sumZ_abs_In csv_votes records row Hrow) as Hle.
    fold (csv_votes_size records) in Hle. rewrite Ez in Hle.
    unfold safe_integer. apply andb_true_iff. split; apply Z.leb_le; lia. }
  assert (Hok : forall r, In r (map received rows) ->
                          inherited (office_key r) = false).
  { intros r Hr. unfold rows in Hr. rewrite map_map in Hr.
    apply in_map_iff in Hr. destruct Hr as [row [<- Hrow]].
    rewrite received_office. destruct (Hrec row Hrow) as [Hin Hk].
    destruct (get "office" row) as [s|] eqn:E; [|reflexivity].
    now apply (Hoffice row s). }
  assert (Hnum : forall r, In r (map received rows) -> numeric_votes r = true).
  { intros r Hr. unfold rows in Hr. rewrite map_map in Hr.
    apply in_map_iff in Hr. destruct Hr as [row [<- Hrow]].
    unfold numeric_votes. now rewrite (Hstored row Hrow). }
  assert (Hvotes_of : map votes_of (map received rows) = map csv_votes records).
  { unfold rows. rewrite !map_map. apply map_ext_in. intros row Hrow.
    unfold votes_of. now rewrite (Hstored row Hrow). }
  assert (Hbound : (votes_size (map received rows) <= max_safe_integer)%Z).
  { unfold votes_size.
    rewrite <- (map_map votes_of Z.abs), Hvotes_of, map_map. exact Hsize. }
  destruct (resultsByOffice_spec _ Hok) as [groups [Hg _]].
  destruct (office_totals_sum _ groups Hg Hnum Hbound) as [totals [Ht [_ Hsum]]].
  exists rows, groups, totals. split; [|split; [|split; [|split]]].
  - unfold api_results, select_results. rewrite selected_results.
    fold records. fold rows. f_equal. f_equal. apply map_ext.
    intros r. apply received_json.
  - unfold rows. now rewrite length_map.
  - exact Hg.
  - exact Ht.
  - now rewrite Hsum, Hvotes_of.
Qed.

Lemma popup_totals_follow_csv_witness :
  exists (rows : list results.row) (groups : object (list result))
         (totals : list Z),
    api_results (startup csv_party_only []) (Some "P1")
    = json_200
        (JArr (map (fun r => JObj (map (fun kv => (fst kv, JPrim (snd kv)))
                                       (received r)))
                   rows))
    /\ List.length rows = List.length (filter (record_of "P1") csv_party_only)
    /\ resultsByOffice (map received rows) = Some groups
    /\ map snd (office_totals groups) = map Some totals
    /\ sumZ totals = sumZ (map csv_votes (filter (record_of "P1") csv_party_only)).
Proof.
  apply (popup_totals_follow_csv csv_party_only [] "P1").
  - intros row [<- | [<- | []]] _.
    + exists "10", 10%Z. repeat split.
    + exists "007", 7%Z. repeat split.
  - vm_compute. discriminate.
  - intros row s [<- | [<- | []]] _ H; inversion H; reflexivity.
Defined.

(** ** Answers on the wire *)

Lemma well_formed_texts (l : list (option string)) :
  well_formed (JArr (map text_json l)) = true.
Proof.
  simpl. apply forallb_forall. intros x Hx. apply in_map_iff in Hx.
  destruct Hx as [v [<- _]]. now destruct v.
Qed.

Lemma well_formed_result (r : results.row) : well_formed (result_json r) = true.
Proof.
  unfold result_json.
  destruct (results.pctkey r), (results.office r), (results.candidate r),
    (results.votes r), (results.party r); reflexivity.
Qed.

Lemma well_formed_group (g : group_key * nat) : well_formed (group_json g) = true.
Proof. destruct g as [[[[c|] [j|]] [d|]] n]; reflexivity. Qed.

Lemma well_formed_feature (r : precincts.row) (g : json) :
  well_formed g = true -> well_formed (feature_json r g) = true.
Proof.
  intros Hg. unfold feature_json. cbn [well_formed map fst snd forallb].
  rewrite Hg.
  destruct (precincts.pctkey r), (precincts.county r),
    (precincts.jurisdiction r), (precincts.district r); reflexivity.
Qed.

Lemma well_formed_map {A : Type} (f : A -> json) (l : list A) :
  (forall x, In x l -> well_formed (f x) = true) ->
  well_formed (JArr (map f l)) = true.
Proof.
  intros H. simpl. apply forallb_forall. intros x Hx. apply in_map_iff in Hx.
  destruct Hx as [a [<- Ha]]. now apply H.
Qed.

Lemma json_200_inj (a b : json) : json_200 a = json_200 b -> a = b.
Proof. intros H. now inversion H. Qed.

(** X19: what the client parses is what the handler built.  The body
    of every 200 answer of the counties, jurisdictions, districts,
    results and debug operations, on any store, and of the precincts
    operation on a store loaded from well-formed geometries, is a JSON
    value that [JSON.parse] reads back unchanged from the text
    [JSON.stringify] gives for it (the [res.json] calls of lines 128,
    137, 148, 158, 169, 214, 227 and 237). *)
Theorem answers_survive_the_wire (db : database) (body : json) :
  api_filters db = json_200 body
  \/ (exists county, api_jurisdictions db county = json_200 body)
  \/ (exists county jurisdiction,
        api_districts db county jurisdiction = json_200 body)
  \/ (exists pctkey, api_results db pctkey = json_200 body)
  \/ api_debug db = json_200 body
  \/ (exists csv features county jurisdiction district,
        db = startup csv features
        /\ Forall (fun feat => well_formed (geometry feat) = true) features
        /\ api_precincts db county jurisdiction district = json_200 body) ->
  JSON.parse (JSON.stringify body) = Some body.
Proof.
  intros H. apply parse_stringify.
  destruct H as [H | [[c H] | [[c [j H]] | [[k H] | [H | H]]]]].
  - unfold api_filters, select_counties in H. apply json_200_inj in H. subst body.
    apply well_formed_texts.
  - unfold api_jurisdictions, select_jurisdictions in H.
    destruct (missing c || is_string c "Select County");
      apply json_200_inj in H; subst body; [reflexivity|apply well_formed_texts].
  - unfold api_districts, select_districts in H.
    destruct (missing c || missing j || is_string c "Select County"
              || is_string j "Select Jurisdiction");
      apply json_200_inj in H; subst body; [reflexivity|apply well_formed_texts].
  - unfold api_results, select_results in H. apply json_200_inj in H. subst body.
    apply well_formed_map. intros r _. apply well_formed_result.
  - unfold api_debug, select_debug in H. apply json_200_inj in H. subst body.
    assert (Hrows : well_formed
                      (JArr (map group_json
                                 (firstn 20 (group_by (precincts_table db)))))
                    = true).
    { apply well_formed_map. intros g _. apply well_formed_group. }
    cbn [well_formed] in Hrows.
    cbn [well_formed map fst snd forallb]. rewrite Hrows. reflexivity.
  - destruct H as [csv [features [c [j [d [-> [Hwf H]]]]]]].
    unfold api_precincts, select_precincts in H.
    set (rows := filter _ _) in H.
    destruct (map_features_loaded features rows Hwf) as [out [Hout Hall]].
    { intros r Hr. unfold rows in Hr. apply filter_In in Hr. tauto. }
    rewrite Hout in H. apply json_200_inj in H. subst body.
    simpl. apply forallb_forall. intros o Ho.
    clear Hout. induction Hall as [|r o' rows' out' Hro _ IH]; [contradiction|].
    destruct Ho as [<- | Ho]; [|now apply IH].
    destruct Hro as [k [feat [props [Hk [_ [_ [_ ->]]]]]]].
    apply well_formed_feature.
    rewrite Forall_forall in Hwf. apply Hwf. eapply nth_error_In; eassumption.
Qed.

Lemma answers_survive_the_wire_witness :
  JSON.parse (JSON.stringify (JArr [JStr "Dallas"; JStr "Tarrant"]))
  = Some (JArr [JStr "Dallas"; JStr "Tarrant"]).
Proof.
  apply (answers_survive_the_wire (startup csv_party_only two_triangles)).
  left. reflexivity.
Defined.
